(** * The layer chain of a small neural-network engine

    A shallow embedding of [include/layer.h]: the class [layer_base], the
    class template [layer<Activation>], the sentinel [input_layer] and the
    container [layers], followed by the properties of the chain that the
    specification states.

    Objects live in a heap indexed by their address; the structural links
    [next_] and [prev_] are pointers into that heap, so that aliasing between
    the two arguments of [connect] and cyclic chains are represented as they
    are in the program. Methods are computations in a state-and-exception
    monad. *)

From Stdlib Require Import ZArith List Bool String Lia Floats.
From Stdlib Require Uint63.
From stdpp Require Import gmap list.

Local Open Scope Z_scope.

(** ** Scalars and vectors *)

(** Modelled from the spec: the typedef [float_t] of [util.h], the type of
    the reals that a layer holds. The literals [0.5] and [0.0] and the
    result of [std::sqrt] on an [int] are C++ [double]s, and [float_t] is
    taken to be [double] as well: IEEE 754 binary64. *)
Abbreviation float_t := float (only parsing).

(** Modelled from the spec: the typedef [vec_t] of [util.h], an ordered
    sequence of reals: [std::vector<float_t>]. *)
Abbreviation vec_t := (list float) (only parsing).

(** The address of an object; the null pointer is not an address, and a
    pointer [layer_base*] is an [option addr]. *)
Definition addr : Type := positive.
Definition ptr : Type := option addr.

(** Conversion of an integer to the 32-bit [int], wrapping around. *)
Definition to_int (z : Z) : Z := (z + 2147483648) mod 4294967296 - 2147483648.

Definition INT_MAX : Z := 2147483647.

(** Conversion of an [int] to [double]; exact on the whole range of [int]. *)
Definition float_of_int (n : Z) : float_t :=
  if n <? 0 then PrimFloat.opp (PrimFloat.of_uint63 (Uint63.of_Z (- n)))
  else PrimFloat.of_uint63 (Uint63.of_Z n).

(** The exceptions. [nn_error] is the exception class of [util.h], thrown
    with a message for the dimension mismatch of the specification;
    [length_error] is [std::length_error] and [bad_alloc] is
    [std::bad_alloc], the two exceptions of [std::vector::resize]. *)
Inductive exn : Type :=
| nn_error (what : string)
| length_error
| bad_alloc.

(** ** Outcomes and the monad of methods *)

Inductive res (A : Type) : Type :=
| Val (a : A)          (* normal return *)
| Throw (e : exn)      (* an exception leaves the call *)
| Undefined            (* a null or dangling pointer is dereferenced *)
| OutOfFuel.           (* the fuel of a loop or of a recursion ran out *)
Arguments Val {A} a.
Arguments Throw {A} e.
Arguments Undefined {A}.
Arguments OutOfFuel {A}.

Definition M (St A : Type) : Type := St -> res A * St.

Definition ret {St A : Type} (a : A) : M St A := fun s => (Val a, s).

Definition bind {St A B : Type} (c : M St A) (k : A -> M St B) : M St B :=
  fun s =>
    match c s with
    | (Val a, s') => k a s'
    | (Throw e, s') => (Throw e, s')
    | (Undefined, s') => (Undefined, s')
    | (OutOfFuel, s') => (OutOfFuel, s')
    end.

Definition throw {St A : Type} (e : exn) : M St A := fun s => (Throw e, s).
Definition undefined {St A : Type} : M St A := fun s => (Undefined, s).
Definition out_of_fuel {St A : Type} : M St A := fun s => (OutOfFuel, s).

Declare Scope cpp_scope.
Delimit Scope cpp_scope with cpp.
Notation "x <- c ;; k" := (bind c (fun x => k))
  (at level 100, c at next level, right associativity) : cpp_scope.
Notation "c ;;; k" := (bind c (fun _ => k))
  (at level 100, right associativity) : cpp_scope.
Local Open Scope cpp_scope.

(** The vector members of a layer, so that a reference [vec_t&] to one of
    them can be named. *)
Inductive member : Type :=
| m_output | m_prev_delta | m_W | m_b | m_Whessian | m_bhessian | m_prev_delta2.

(** A reference to a vector: to a member of a layer in the heap, or to a
    vector of the caller that no layer owns. *)
Inductive vref : Type :=
| ref_member (a : addr) (f : member)
| ref_caller (v : vec_t).

(** Calls that the properties count: a virtual call of [reset] on a layer,
    and a call of the updater [u] made by a layer. *)
Inductive event : Type :=
| ev_reset (this : addr)
| ev_update (u : ptr) (this : addr).

Definition is_update (e : event) : bool :=
  match e with ev_update _ _ => true | ev_reset _ => false end.

(** The number of updater calls among the calls counted. *)
Definition updater_calls (log : list event) : nat :=
  length (List.filter is_update log).

(** [std::fill(begin, end, x)] over a whole vector. *)
Fixpoint std_fill (v : vec_t) (x : float_t) : vec_t :=
  match v with
  | [] => []
  | _ :: t => x :: std_fill t x
  end.

(** A counted loop [for (size_t i = from; i < from + n; i++) body(i)]. *)
Fixpoint for_loop {St : Type} (n : nat) (from : nat) (body : nat -> St -> St) (s : St) : St :=
  match n with
  | O => s
  | S k => for_loop k (S from) body (body from s)
  end.

(** ** Objects *)

(** What lies outside the header: the concrete layer classes derived from
    [layer<Activation>] (a value of [ext_class] names such a class together
    with the data members it adds), the state of the generator that
    [uniform_rand] of [util.h] keeps in a static variable, and the free
    store: [allocates n] tells whether [std::allocator] supplies the storage
    of [n] reals when a vector asks for it, and where it does not the
    request ends in [std::bad_alloc]. *)
Class Externals : Type := {
  ext_class : Type;
  rng_state : Type;
  allocates : Z -> bool
}.

(** [std::vector::resize] called with an [int]. The argument is converted to
    [size_t], so a negative one becomes larger than [max_size()] and the call
    throws [std::length_error]; a [size_t] is taken to have 64 bits, so that
    no other [int] is beyond [max_size()]. A vector is cut in place; to grow,
    it asks the free store for the storage of [n] elements, throws
    [std::bad_alloc] and stays as it is when there is none, and is padded
    with value-initialised elements otherwise. The vectors of the header are
    resized only when they are empty and own no storage. *)
Definition vector_resize {ext : Externals} (v : vec_t) (n : Z) : res vec_t :=
  if n <? 0 then Throw length_error
  else if (n <=? Z.of_nat (length v)) || allocates n
       then Val (resize (Z.to_nat n) 0%float v)
       else Throw bad_alloc.

Section Objects.
Context {ext : Externals}.

(** The dynamic type of an object: [input_layer], or a class defined
    elsewhere. [layer_base] and [layer<Activation>] are abstract. *)
Inductive dyn_class : Type :=
| class_input_layer
| class_ext (c : ext_class).

(** The data members of [layer_base], preceded by the dynamic type. *)
Record layer_base : Type := mk_layer_base {
  vptr : dyn_class;
  in_size_ : Z;
  out_size_ : Z;
  next_ : ptr;
  prev_ : ptr;
  output_ : vec_t;
  prev_delta_ : vec_t;
  W_ : vec_t;
  b_ : vec_t;
  Whessian_ : vec_t;
  bhessian_ : vec_t;
  prev_delta2_ : vec_t
}.

Definition set_in_size_ (n : Z) (l : layer_base) : layer_base :=
  mk_layer_base (vptr l) n (out_size_ l) (next_ l) (prev_ l) (output_ l)
    (prev_delta_ l) (W_ l) (b_ l) (Whessian_ l) (bhessian_ l) (prev_delta2_ l).

Definition set_out_size_ (n : Z) (l : layer_base) : layer_base :=
  mk_layer_base (vptr l) (in_size_ l) n (next_ l) (prev_ l) (output_ l)
    (prev_delta_ l) (W_ l) (b_ l) (Whessian_ l) (bhessian_ l) (prev_delta2_ l).

Definition set_next_ (p : ptr) (l : layer_base) : layer_base :=
  mk_layer_base (vptr l) (in_size_ l) (out_size_ l) p (prev_ l) (output_ l)
    (prev_delta_ l) (W_ l) (b_ l) (Whessian_ l) (bhessian_ l) (prev_delta2_ l).

Definition set_prev_ (p : ptr) (l : layer_base) : layer_base :=
  mk_layer_base (vptr l) (in_size_ l) (out_size_ l) (next_ l) p (output_ l)
    (prev_delta_ l) (W_ l) (b_ l) (Whessian_ l) (bhessian_ l) (prev_delta2_ l).

Definition get_member (f : member) (l : layer_base) : vec_t :=
  match f with
  | m_output => output_ l
  | m_prev_delta => prev_delta_ l
  | m_W => W_ l
  | m_b => b_ l
  | m_Whessian => Whessian_ l
  | m_bhessian => bhessian_ l
  | m_prev_delta2 => prev_delta2_ l
  end.

Definition set_member (f : member) (v : vec_t) (l : layer_base) : layer_base :=
  match f with
  | m_output =>
      mk_layer_base (vptr l) (in_size_ l) (out_size_ l) (next_ l) (prev_ l) v
        (prev_delta_ l) (W_ l) (b_ l) (Whessian_ l) (bhessian_ l) (prev_delta2_ l)
  | m_prev_delta =>
      mk_layer_base (vptr l) (in_size_ l) (out_size_ l) (next_ l) (prev_ l) (output_ l)
        v (W_ l) (b_ l) (Whessian_ l) (bhessian_ l) (prev_delta2_ l)
  | m_W =>
      mk_layer_base (vptr l) (in_size_ l) (out_size_ l) (next_ l) (prev_ l) (output_ l)
        (prev_delta_ l) v (b_ l) (Whessian_ l) (bhessian_ l) (prev_delta2_ l)
  | m_b =>
      mk_layer_base (vptr l) (in_size_ l) (out_size_ l) (next_ l) (prev_ l) (output_ l)
        (prev_delta_ l) (W_ l) v (Whessian_ l) (bhessian_ l) (prev_delta2_ l)
  | m_Whessian =>
      mk_layer_base (vptr l) (in_size_ l) (out_size_ l) (next_ l) (prev_ l) (output_ l)
        (prev_delta_ l) (W_ l) (b_ l) v (bhessian_ l) (prev_delta2_ l)
  | m_bhessian =>
      mk_layer_base (vptr l) (in_size_ l) (out_size_ l) (next_ l) (prev_ l) (output_ l)
        (prev_delta_ l) (W_ l) (b_ l) (Whessian_ l) v (prev_delta2_ l)
  | m_prev_delta2 =>
      mk_layer_base (vptr l) (in_size_ l) (out_size_ l) (next_ l) (prev_ l) (output_ l)
        (prev_delta_ l) (W_ l) (b_ l) (Whessian_ l) (bhessian_ l) v
  end.

(** ** The world: the heap of layers, the generator of [uniform_rand], and
    the calls counted so far *)

Record world : Type := mk_world {
  heap : gmap addr layer_base;
  gen : rng_state;
  calls : list event
}.

Definition set_heap (h : gmap addr layer_base) (w : world) : world :=
  mk_world h (gen w) (calls w).

Definition set_gen (g : rng_state) (w : world) : world :=
  mk_world (heap w) g (calls w).

Definition record_call (e : event) : M world unit :=
  fun w => (Val tt, mk_world (heap w) (gen w) (calls w ++ [e])).

Definition get_gen : M world rng_state := fun w => (Val (gen w), w).
Definition put_gen (g : rng_state) : M world unit := fun w => (Val tt, set_gen g w).

(** [*p] for a pointer [p]. *)
Definition deref (p : ptr) : M world layer_base :=
  fun w =>
    match p with
    | None => (Undefined, w)
    | Some a =>
        match heap w !! a with
        | Some l => (Val l, w)
        | None => (Undefined, w)
        end
    end.

(** An assignment [p->member = ...]. *)
Definition modify (p : ptr) (f : layer_base -> layer_base) : M world unit :=
  l <- deref p ;;
  match p with
  | Some a => fun w => (Val tt, set_heap (<[a := f l]> (heap w)) w)
  | None => undefined
  end.

(** Reading and writing through a reference [vec_t&]. *)
Definition load (r : vref) : M world vec_t :=
  match r with
  | ref_member a f => l <- deref (Some a) ;; ret (get_member f l)
  | ref_caller v => ret v
  end.

Definition store (a : addr) (f : member) (v : vec_t) : M world unit :=
  modify (Some a) (set_member f v).

End Objects.

(** ** What the classes defined elsewhere supply *)

Class Methods {ext : Externals} : Type := {
  (** The final overrider of [reset]: [None] where the class inherits the
      one of [layer_base]. *)
  ext_reset : ext_class -> option (addr -> M world unit);
  (** The pure virtual functions, which every concrete class defines. *)
  ext_fan_in_size : ext_class -> layer_base -> Z;
  ext_connection_size : ext_class -> layer_base -> Z;
  ext_forward_propagation : ext_class -> addr -> vref -> M world vref;
  ext_back_propagation : ext_class -> addr -> vref -> ptr -> M world vref;
  ext_back_propagation_2nd : ext_class -> addr -> vref -> M world vref;
  (** One draw of [uniform_rand(min, max)] of [util.h] from the generator. *)
  uniform_rand1 : float_t -> float_t -> rng_state -> float_t * rng_state
}.

Section Code.
Context {ext : Externals} {meth : Methods}.

(** Modelled from the spec: [uniform_rand(begin, end, min, max)] of [util.h],
    the random source that fills a destination range with reals of the
    closed interval the caller gives; here one draw per element, from the
    first to the last. *)
Fixpoint uniform_rand_fill (v : vec_t) (lo hi : float_t) (g : rng_state)
  : vec_t * rng_state :=
  match v with
  | [] => ([], g)
  | _ :: t =>
      let (x, g1) := uniform_rand1 lo hi g in
      let (t', g2) := uniform_rand_fill t lo hi g1 in
      (x :: t', g2)
  end.

Definition uniform_rand (a : addr) (f : member) (lo hi : float_t) : M world unit :=
  v <- load (ref_member a f) ;;
  g <- get_gen ;;
  let (v', g') := uniform_rand_fill v lo hi g in
  put_gen g' ;;;
  store a f v'.

(** ** [class layer_base] *)

(** [virtual int in_size() const], [out_size], [param_size]. The
    specification fixes the sizes at construction and no class of the header
    overrides these three, so a virtual call of one of them runs the body
    below. The sum of two [size_t] is converted to the [int] that
    [param_size] returns. *)
Definition in_size (l : layer_base) : Z := in_size_ l.
Definition out_size (l : layer_base) : Z := out_size_ l.
Definition param_size (l : layer_base) : Z :=
  to_int (Z.of_nat (length (W_ l)) + Z.of_nat (length (b_ l))).

(** [input_layer::connection_size] and [input_layer::fan_in_size]. *)
Definition input_layer_connection_size (l : layer_base) : Z := in_size_ l.
Definition input_layer_fan_in_size (l : layer_base) : Z := 1.

(** [virtual int fan_in_size() const = 0], [connection_size]. *)
Definition fan_in_size (l : layer_base) : Z :=
  match vptr l with
  | class_input_layer => input_layer_fan_in_size l
  | class_ext c => ext_fan_in_size c l
  end.

Definition connection_size (l : layer_base) : Z :=
  match vptr l with
  | class_input_layer => input_layer_connection_size l
  | class_ext c => ext_connection_size c l
  end.

(** [void set_size(int in_dim, int out_dim, int weight_dim, int bias_dim)] *)
Definition resize_member (this : addr) (f : member) (n : Z) : M world unit :=
  v <- load (ref_member this f) ;;
  match vector_resize v n with
  | Val v' => store this f v'
  | Throw e => throw e
  | Undefined => undefined
  | OutOfFuel => out_of_fuel
  end.

Definition set_size (this : addr) (in_dim out_dim weight_dim bias_dim : Z)
  : M world unit :=
  modify (Some this) (set_in_size_ in_dim) ;;;
  modify (Some this) (set_out_size_ out_dim) ;;;
  resize_member this m_output out_dim ;;;
  resize_member this m_prev_delta in_dim ;;;
  resize_member this m_W weight_dim ;;;
  resize_member this m_b bias_dim ;;;
  resize_member this m_Whessian weight_dim ;;;
  resize_member this m_bhessian bias_dim ;;;
  resize_member this m_prev_delta2 in_dim.

(** [layer_base(int in_dim, int out_dim, int weight_dim, int bias_dim)
      : next_(0), prev_(0)], run for an object of dynamic type [cls] whose
    storage is at [this]. The sizes are indeterminate until [set_size]
    assigns them. An exception of [set_size] ends the lifetime of the object
    under construction. *)
Definition layer_base_ctor (cls : dyn_class) (this : addr)
    (in_dim out_dim weight_dim bias_dim : Z) : M world unit :=
  fun w =>
    match heap w !! this with
    | Some _ => (Undefined, w)
    | None =>
        let blank := mk_layer_base cls 0 0 None None [] [] [] [] [] [] [] in
        match set_size this in_dim out_dim weight_dim bias_dim
                (set_heap (<[this := blank]> (heap w)) w) with
        | (Val tt, w') => (Val tt, w')
        | (r, w') => (r, set_heap (delete this (heap w')) w')
        end
    end.

(** [void connect(layer_base* tail)] *)
Definition connect (this : addr) (tail : ptr) : M world unit :=
  me <- deref (Some this) ;;
  differ <-
    (if out_size me =? 0 then ret false
     else t <- deref tail ;; ret (negb (in_size t =? out_size me))) ;;
  if (differ : bool) then throw (nn_error "dimension mismatch")
  else
    modify (Some this) (set_next_ tail) ;;;
    modify tail (set_prev_ (Some this)).

(** [void init_weight()] *)
Definition weight_base_of (fan_in : Z) : float_t :=
  (0.5 / PrimFloat.sqrt (float_of_int fan_in))%float.

Definition fill_member (this : addr) (f : member) (x : float_t) : M world unit :=
  v <- load (ref_member this f) ;;
  store this f (std_fill v x).

Definition init_weight (this : addr) : M world unit :=
  me <- deref (Some this) ;;
  let weight_base := weight_base_of (fan_in_size me) in
  uniform_rand this m_W (- weight_base)%float weight_base ;;;
  uniform_rand this m_b (- weight_base)%float weight_base ;;;
  fill_member this m_Whessian 0%float ;;;
  fill_member this m_bhessian 0%float.

(** The accessors [output()], [delta()], [weight()], [bias()]. *)
Definition output (this : addr) : vref := ref_member this m_output.
Definition delta (this : addr) : vref := ref_member this m_prev_delta.
Definition weight (this : addr) : vref := ref_member this m_W.
Definition bias (this : addr) : vref := ref_member this m_b.

(** [void divide_hessian(int denominator)]: each loop runs over the indices
    of its vector and divides the element in place. *)
Definition divide_at (denominator : Z) (i : nat) (v : vec_t) : vec_t :=
  match v !! i with
  | Some x => <[i := (x / float_of_int denominator)%float]> v
  | None => v
  end.

Definition divide_elements (v : vec_t) (denominator : Z) : vec_t :=
  for_loop (length v) 0 (divide_at denominator) v.

Definition divide_hessian (this : addr) (denominator : Z) : M world unit :=
  wh <- load (ref_member this m_Whessian) ;;
  store this m_Whessian (divide_elements wh denominator) ;;;
  bh <- load (ref_member this m_bhessian) ;;
  store this m_bhessian (divide_elements bh denominator).

(** [virtual void reset() { init_weight(); }], then the virtual call. *)
Definition layer_base_reset (this : addr) : M world unit := init_weight this.

Definition reset (this : ptr) : M world unit :=
  me <- deref this ;;
  match this with
  | None => undefined
  | Some a =>
      record_call (ev_reset a) ;;;
      match vptr me with
      | class_input_layer => layer_base_reset a
      | class_ext c =>
          match ext_reset c with Some f => f a | None => layer_base_reset a end
      end
  end.

(** ** [class input_layer] *)

(** [input_layer() : layer<identity_activation>(0, 0, 0, 0)] *)
Definition input_layer_ctor (this : addr) : M world unit :=
  layer_base_ctor class_input_layer this 0 0 0 0.

(** [const vec_t& forward_propagation(const vec_t& in)]; [virt] is the
    virtual call [next_->forward_propagation]. *)
Definition input_layer_forward_propagation
    (virt : ptr -> vref -> M world vref) (this : addr) (inp : vref)
  : M world vref :=
  v <- load inp ;;
  store this m_output v ;;;
  me <- deref (Some this) ;;
  match next_ me with
  | Some n => virt (Some n) inp
  | None => ret (output this)
  end.

(** [const vec_t& back_propagation(const vec_t& current_delta, updater *l)] *)
Definition input_layer_back_propagation
    (this : addr) (current_delta : vref) (l : ptr) : M world vref :=
  ret current_delta.

(** [const vec_t& back_propagation_2nd(const vec_t& current_delta2)] *)
Definition input_layer_back_propagation_2nd
    (this : addr) (current_delta2 : vref) : M world vref :=
  ret current_delta2.

(** The virtual calls of the propagation functions dispatch on the dynamic
    type. [input_layer::forward_propagation] calls its successor through
    the same virtual call, so the call takes fuel. *)
Fixpoint forward_propagation (fuel : nat) (this : ptr) (inp : vref)
  : M world vref :=
  match fuel with
  | O => out_of_fuel
  | S k =>
      me <- deref this ;;
      match this with
      | None => undefined
      | Some a =>
          match vptr me with
          | class_input_layer =>
              input_layer_forward_propagation (forward_propagation k) a inp
          | class_ext c => ext_forward_propagation c a inp
          end
      end
  end.

Definition back_propagation (this : ptr) (current_delta : vref) (l : ptr)
  : M world vref :=
  me <- deref this ;;
  match this with
  | None => undefined
  | Some a =>
      match vptr me with
      | class_input_layer => input_layer_back_propagation a current_delta l
      | class_ext c => ext_back_propagation c a current_delta l
      end
  end.

Definition back_propagation_2nd (this : ptr) (current_delta2 : vref)
  : M world vref :=
  me <- deref this ;;
  match this with
  | None => undefined
  | Some a =>
      match vptr me with
      | class_input_layer => input_layer_back_propagation_2nd a current_delta2
      | class_ext c => ext_back_propagation_2nd c a current_delta2
      end
  end.

(** ** [class layers] *)

(** The members of the container. The sentinel [first_] is a member
    sub-object: the field holds its address, and the object itself is in the
    heap like every other layer. *)
Record layers : Type := mk_layers {
  first_ : addr;
  head_ : ptr;
  tail_ : ptr
}.

Definition set_head_ (p : ptr) (c : layers) : layers :=
  mk_layers (first_ c) p (tail_ c).

Definition set_tail_ (p : ptr) (c : layers) : layers :=
  mk_layers (first_ c) (head_ c) p.

(** The methods of the container run on the container and the world. *)
Definition lift {A : Type} (c : M world A) : M (layers * world) A :=
  fun s => let (r, w') := c (snd s) in (r, (fst s, w')).

Definition self : M (layers * world) layers := fun s => (Val (fst s), s).

Definition assign (f : layers -> layers) : M (layers * world) unit :=
  fun s => (Val tt, (f (fst s), snd s)).

(** [void add(layer_base* new_tail)] *)
Definition layers_add (new_tail : ptr) : M (layers * world) unit :=
  me <- self ;;
  (match head_ me with
   | None => assign (set_head_ new_tail)
   | Some _ => ret tt
   end) ;;;
  me <- self ;;
  (match tail_ me with
   | Some t => lift (connect t new_tail)
   | None => ret tt
   end) ;;;
  assign (set_tail_ new_tail).

(** [layers() : head_(0), tail_(0) { add(&first_); }], the sentinel being
    constructed first, at the address [p]. *)
Definition layers_ctor (p : addr) (w : world) : res unit * (layers * world) :=
  match input_layer_ctor p w with
  | (Val tt, w') => layers_add (Some p) (mk_layers p None None, w')
  | (r, w') => (r, (mk_layers p None None, w'))
  end.

(** [bool empty() const], [head()], [tail()] *)
Definition layers_empty (c : layers) : bool :=
  match head_ c with None => true | Some _ => false end.
Definition layers_head (c : layers) : ptr := head_ c.
Definition layers_tail (c : layers) : ptr := tail_ c.

(** [void reset()]: the loop [while (l) { l->reset(); l = l->next_; }]. *)
Fixpoint reset_loop (fuel : nat) (l : ptr) {struct fuel} : M world unit :=
  match l with
  | None => ret tt
  | Some _ =>
      match fuel with
      | O => out_of_fuel
      | S k =>
          reset l ;;;
          me <- deref l ;;
          reset_loop k (next_ me)
      end
  end.

Definition layers_reset (fuel : nat) : M (layers * world) unit :=
  me <- self ;;
  lift (reset_loop fuel (head_ me)).

(** [void divide_hessian(int denominator)] *)
Fixpoint divide_hessian_loop (fuel : nat) (l : ptr) (denominator : Z)
    {struct fuel} : M world unit :=
  match l with
  | None => ret tt
  | Some a =>
      match fuel with
      | O => out_of_fuel
      | S k =>
          divide_hessian a denominator ;;;
          me <- deref l ;;
          divide_hessian_loop k (next_ me) denominator
      end
  end.

Definition layers_divide_hessian (fuel : nat) (denominator : Z)
  : M (layers * world) unit :=
  me <- self ;;
  lift (divide_hessian_loop fuel (head_ me) denominator).

End Code.

(** ** Chains and invariants *)

(** A binary64 value, as the specification of the format describes it, is
    not a NaN and has the sign plus. *)
Definition sign_plus (x : spec_float) : Prop :=
  match x with
  | S754_zero s | S754_infinity s | S754_finite s _ _ => s = false
  | S754_nan => False
  end.

Section Shapes.
Context {ext : Externals}.

(** [chain h p path]: following [next_] from the pointer [p] in the heap [h]
    visits exactly the layers of [path], in this order, and then reaches the
    null pointer. *)
Fixpoint chain (h : gmap addr layer_base) (p : ptr) (path : list addr) : Prop :=
  match path with
  | [] => p = None
  | a :: rest => p = Some a ∧ ∃ l, h !! a = Some l ∧ chain h (next_ l) rest
  end.

(** Two heaps have the same objects with the same [next_] links. *)
Definition same_links (h h' : gmap addr layer_base) : Prop :=
  ∀ a, next_ <$> (h' !! a) = next_ <$> (h !! a).

(** The sizes of the buffers of a layer agree with its dimensions. *)
Definition buffers_sized (l : layer_base) : Prop :=
  Z.of_nat (length (output_ l)) = out_size_ l ∧
  Z.of_nat (length (prev_delta_ l)) = in_size_ l ∧
  Z.of_nat (length (prev_delta2_ l)) = in_size_ l.

(** Every element of a vector lies in the closed interval from [lo] to [hi]. *)
Definition within (lo hi : float_t) (v : vec_t) : Prop :=
  Forall (fun x => (lo <=? x)%float = true ∧ (x <=? hi)%float = true) v.

Definition all_zero (v : vec_t) : Prop := Forall (fun x => x = 0%float) v.

(** The object that the constructor of [layer_base] leaves. *)
Definition new_layer (cls : dyn_class) (in_dim out_dim weight_dim bias_dim : Z)
  : layer_base :=
  mk_layer_base cls in_dim out_dim None None
    (replicate (Z.to_nat out_dim) 0%float) (replicate (Z.to_nat in_dim) 0%float)
    (replicate (Z.to_nat weight_dim) 0%float) (replicate (Z.to_nat bias_dim) 0%float)
    (replicate (Z.to_nat weight_dim) 0%float) (replicate (Z.to_nat bias_dim) 0%float)
    (replicate (Z.to_nat in_dim) 0%float).

(** Two states of a layer with the same dimensions and the same lengths of
    all vectors. *)
Definition same_shape (l l' : layer_base) : Prop :=
  in_size_ l' = in_size_ l ∧ out_size_ l' = out_size_ l ∧
  ∀ f : member, length (get_member f l') = length (get_member f l).

(** Every layer of the heap [h'] is a layer of [h], of the same shape. *)
Definition sizes_step (h h' : gmap addr layer_base) : Prop :=
  ∀ (a : addr) (l' : layer_base),
    h' !! a = Some l' -> ∃ l : layer_base, h !! a = Some l ∧ same_shape l l'.

(** A computation creates no layer, and leaves the sizes of the buffers of
    each layer in agreement with its dimensions if they were, and
    [param_size()] and the lengths of the weights and biases as they were. *)
Definition keeps_sizes (c : M world unit) : Prop :=
  ∀ (w : world) (a : addr) (l' : layer_base),
    heap (snd (c w)) !! a = Some l' ->
    ∃ l : layer_base,
      heap w !! a = Some l ∧
      (buffers_sized l -> buffers_sized l') ∧
      length (W_ l') = length (W_ l) ∧ length (b_ l') = length (b_ l) ∧
      param_size l' = param_size l.

(** The test of [connect]. *)
Definition mismatch (la lb : layer_base) : Prop :=
  out_size la ≠ 0 ∧ in_size lb ≠ out_size la.

(** The object at [b] once [next_] of the object at [a] has been assigned. *)
Definition after_next (a b : addr) (la lb : layer_base) : layer_base :=
  if decide (a = b) then set_next_ (Some b) la else lb.

(** The diagonal of the hessian has the shape of the parameters. *)
Definition hessians_shaped (l : layer_base) : Prop :=
  length (Whessian_ l) = length (W_ l) ∧ length (bhessian_ l) = length (b_ l).

(** A computation creates no layer and leaves the hessians of each layer in
    the shape of its parameters if they were. *)
Definition keeps_hessian_shapes (c : M world unit) : Prop :=
  ∀ (w : world) (a : addr) (l' : layer_base),
    heap (snd (c w)) !! a = Some l' ->
    ∃ l : layer_base,
      heap w !! a = Some l ∧ (hessians_shaped l -> hessians_shaped l').

(** A layer without learnable parameters, as the sentinel is. *)
Definition no_parameters (l : layer_base) : Prop :=
  W_ l = [] ∧ b_ l = [] ∧ Whessian_ l = [] ∧ bhessian_ l = [].

(** Every layer of the heap [h] is still a layer of [h'], of the same
    dynamic type and the same dimensions. *)
Definition persists (h h' : gmap addr layer_base) : Prop :=
  ∀ (a : addr) (l : layer_base),
    h !! a = Some l ->
    ∃ l' : layer_base,
      h' !! a = Some l' ∧ vptr l' = vptr l ∧
      in_size_ l' = in_size_ l ∧ out_size_ l' = out_size_ l.

(** The states of a container and its world that a program reaches by
    constructing the container, constructing further layers, and calling
    [add], whether [add] returns or throws. *)
Inductive reachable : layers * world -> Prop :=
| reachable_ctor (p : addr) (w : world) (s : layers * world) :
    heap w !! p = None -> layers_ctor p w = (Val tt, s) -> reachable s
| reachable_new (c : layers) (w w' : world) (cls : dyn_class) (this : addr)
    (i o wd bd : Z) (r : res unit) :
    reachable (c, w) -> layer_base_ctor cls this i o wd bd w = (r, w') ->
    reachable (c, w')
| reachable_add (s s' : layers * world) (L : ptr) :
    reachable s -> layers_add L s = (Val tt, s') -> reachable s'
| reachable_add_throws (s s' : layers * world) (L : ptr) (e : exn) :
    reachable s -> layers_add L s = (Throw e, s') -> reachable s'.

(** What holds of a container in every such state: it is not empty, its head
    is its own sentinel, which is alive, of class [input_layer] and of
    output size 0, and its tail is a layer that is alive. *)
Definition container_ok (s : layers * world) : Prop :=
  layers_empty (fst s) = false ∧
  layers_head (fst s) = Some (first_ (fst s)) ∧
  (∃ l : layer_base,
     heap (snd s) !! first_ (fst s) = Some l ∧
     vptr l = class_input_layer ∧ out_size l = 0) ∧
  (∃ (t : addr) (lt : layer_base),
     layers_tail (fst s) = Some t ∧ heap (snd s) !! t = Some lt).

End Shapes.

Section Contracts.
Context {ext : Externals} {meth : Methods}.

(** What the specification says of the random source: a draw from a closed
    interval lies in it. *)
Definition draws_in_range : Prop :=
  ∀ (lo hi : float_t) (g : rng_state),
    (lo <=? hi)%float = true ->
    (lo <=? fst (uniform_rand1 lo hi g))%float = true ∧
    (fst (uniform_rand1 lo hi g) <=? hi)%float = true.


(** The layer and the generator that [init_weight] leaves. *)
Definition init_weight_layer (l : layer_base) (g : rng_state)
  : layer_base * rng_state :=
  let wb := weight_base_of (fan_in_size l) in
  let r1 := uniform_rand_fill (W_ l) (- wb)%float wb g in
  let r2 := uniform_rand_fill (b_ l) (- wb)%float wb (snd r1) in
  (set_member m_bhessian (std_fill (bhessian_ l) 0%float)
     (set_member m_Whessian (std_fill (Whessian_ l) 0%float)
        (set_member m_b (fst r2) (set_member m_W (fst r1) l))),
   snd r2).

(** The layer that [divide_hessian] leaves. *)
Definition divide_hessian_layer (denominator : Z) (l : layer_base) : layer_base :=
  set_member m_bhessian (divide_elements (bhessian_ l) denominator)
    (set_member m_Whessian (divide_elements (Whessian_ l) denominator) l).

(** The generator after [n] draws from the interval from [lo] to [hi]. *)
Fixpoint advance (n : nat) (lo hi : float_t) (g : rng_state) : rng_state :=
  match n with
  | O => g
  | S k => advance k lo hi (snd (uniform_rand1 lo hi g))
  end.

(** The class of a layer inherits the [reset] of [layer_base]. *)
Definition inherits_reset (l : layer_base) : Prop :=
  match vptr l with
  | class_input_layer => True
  | class_ext c => ext_reset c = None
  end.

(** The exception, if there is one, with which [resize(n)] leaves a vector
    that is empty. *)
Definition refusal (n : Z) : option exn :=
  if n <? 0 then Some length_error
  else if (n <=? 0) || allocates n then None
  else Some bad_alloc.

(** The exception, if there is one, with which [set_size] ends: that of the
    first of its calls of [resize] that throws. *)
Definition set_size_refusal (in_dim out_dim weight_dim bias_dim : Z) : option exn :=
  match refusal out_dim, refusal in_dim, refusal weight_dim, refusal bias_dim with
  | Some e, _, _, _ => Some e
  | None, Some e, _, _ => Some e
  | None, None, Some e, _ => Some e
  | None, None, None, r => r
  end.

(** A dimension that [resize] accepts for an empty vector: it is not
    negative, and the free store supplies the elements when there are
    any. *)
Definition supplied (n : Z) : Prop :=
  0 <= n ∧ (0 < n -> allocates n = true).

End Contracts.

(** ** A concrete instance

    Two classes defined elsewhere. Both report their input size as fan-in
    and as connection size, their propagation functions hand back the
    buffers of the layer, and their [back_propagation] calls the updater
    once. [plain_layer] inherits [reset]; [frozen_layer] overrides it, to
    clear [output_] and leave the parameters alone. The generator is a
    counter, and a draw alternates between the two ends of the interval.
    The free store supplies vectors of up to 65536 reals. *)

Inductive plain_class : Type := plain_layer | frozen_layer.

Definition plain_externals : Externals :=
  {| ext_class := plain_class; rng_state := nat;
     allocates := fun n => 65536 >=? n |}.

Definition plain_uniform_rand1 (lo hi : float_t) (g : nat) : float_t * nat :=
  (if Nat.even g then lo else hi, S g).

Definition frozen_layer_reset (this : addr) : M (@world plain_externals) unit :=
  @fill_member plain_externals this m_output 0%float.

Definition plain_methods : @Methods plain_externals :=
  @Build_Methods plain_externals
    (fun c =>
       match c with
       | plain_layer => None
       | frozen_layer => Some frozen_layer_reset
       end)
    (fun _ l => @in_size_ plain_externals l)
    (fun _ l => @in_size_ plain_externals l)
    (fun _ a _ => ret (ref_member a m_output))
    (fun _ a _ u =>
       @record_call plain_externals (ev_update u a) ;;;
       ret (ref_member a m_prev_delta))
    (fun _ a _ => ret (ref_member a m_prev_delta2))
    plain_uniform_rand1.

(** The constructors of the two classes pass their arguments to
    [layer_base]. *)
Definition plain_layer_ctor (this : addr) (in_dim out_dim weight_dim bias_dim : Z)
  : M (@world plain_externals) unit :=
  @layer_base_ctor plain_externals (@class_ext plain_externals plain_layer) this
    in_dim out_dim weight_dim bias_dim.

Definition frozen_layer_ctor (this : addr) (in_dim out_dim weight_dim bias_dim : Z)
  : M (@world plain_externals) unit :=
  @layer_base_ctor plain_externals (@class_ext plain_externals frozen_layer) this
    in_dim out_dim weight_dim bias_dim.

Definition empty_world : @world plain_externals :=
  @mk_world plain_externals ∅ O [].

Section Sample.
#[local] Existing Instance plain_externals.
#[local] Existing Instance plain_methods.

(** A sample network over this instance: the container with its sentinel
    at address 1, a [plain_layer] at address 2, of dimensions 3 to 2 with 6
    weights and 2 biases, and a [frozen_layer] at address 3, of dimensions 2
    to 1 with 2 weights and 1 bias; first constructed only, then added to
    the container. *)
Definition sample_built : layers * world :=
  let s := snd (layers_ctor 1%positive empty_world) in
  let w1 := snd (plain_layer_ctor 2%positive 3 2 6 2 (snd s)) in
  let w2 := snd (frozen_layer_ctor 3%positive 2 1 2 1 w1) in
  (fst s, w2).

Definition sample_net : layers * world :=
  snd ((layers_add (Some 2%positive) ;;; layers_add (Some 3%positive)) sample_built).

(** The three layers as the constructors leave them, and as [add] links
    them. *)
Definition sample_sentinel : layer_base := new_layer class_input_layer 0 0 0 0.
Definition sample_plain : layer_base := new_layer (class_ext plain_layer) 3 2 6 2.
Definition sample_frozen : layer_base := new_layer (class_ext frozen_layer) 2 1 2 1.

Definition linked_sentinel : layer_base :=
  set_next_ (Some 2%positive) sample_sentinel.
Definition linked_plain : layer_base :=
  set_next_ (Some 3%positive) (set_prev_ (Some 1%positive) sample_plain).
Definition linked_frozen : layer_base :=
  set_prev_ (Some 2%positive) sample_frozen.

(** The sample once the layer at 2 has been added, and that layer then. *)
Definition sample_two : layers * world :=
  snd (layers_add (Some 2%positive) sample_built).
Definition tail_plain : layer_base := set_prev_ (Some 1%positive) sample_plain.

(** The sample as constructed, with its sentinel connected to itself. *)
Definition looped_sentinel : layer_base :=
  set_prev_ (Some 1%positive) (set_next_ (Some 1%positive) sample_sentinel).
Definition looped_world : world :=
  snd (connect 1%positive (Some 1%positive) (snd sample_built)).

End Sample.

(** * Properties *)

Section Properties.
Context {ext : Externals} {meth : Methods}.

(** ** The primitives of the heap *)

Lemma deref_Some (a : addr) (l : layer_base) (w : world) :
  heap w !! a = Some l -> deref (Some a) w = (Val l, w).
Proof. intros Hl. unfold deref. now rewrite Hl. Qed.

Lemma deref_None (a : addr) (w : world) :
  heap w !! a = None -> deref (Some a) w = (Undefined, w).
Proof. intros Hl. unfold deref. now rewrite Hl. Qed.

Lemma modify_Some (a : addr) (f : layer_base -> layer_base) (l : layer_base) (w : world) :
  heap w !! a = Some l ->
  modify (Some a) f w = (Val tt, set_heap (<[a := f l]> (heap w)) w).
Proof. intros Hl. unfold modify, bind. now rewrite (deref_Some a l w Hl). Qed.

Lemma load_member (a : addr) (f : member) (l : layer_base) (w : world) :
  heap w !! a = Some l -> load (ref_member a f) w = (Val (get_member f l), w).
Proof. intros Hl. unfold load, bind. now rewrite (deref_Some a l w Hl). Qed.

Lemma store_Some (a : addr) (f : member) (v : vec_t) (l : layer_base) (w : world) :
  heap w !! a = Some l ->
  store a f v w = (Val tt, set_heap (<[a := set_member f v l]> (heap w)) w).
Proof. intros Hl. unfold store. now apply modify_Some. Qed.

Lemma heap_set_heap (h : gmap addr layer_base) (w : world) : heap (set_heap h w) = h.
Proof. reflexivity. Qed.

Lemma set_heap_set_heap (h h' : gmap addr layer_base) (w : world) :
  set_heap h (set_heap h' w) = set_heap h w.
Proof. reflexivity. Qed.

Lemma set_heap_id (w : world) : set_heap (heap w) w = w.
Proof. now destruct w. Qed.

(** ** [connect] *)

Lemma mismatch_dec (la lb : layer_base) : {mismatch la lb} + {¬ mismatch la lb}.
Proof.
  unfold mismatch.
  destruct (Z.eq_dec (out_size la) 0); [right; tauto |].
  destruct (Z.eq_dec (in_size lb) (out_size la)); [right; tauto | left; tauto].
Qed.

Lemma connect_throws (a b : addr) (la lb : layer_base) (w : world) :
  heap w !! a = Some la -> heap w !! b = Some lb -> mismatch la lb ->
  connect a (Some b) w = (Throw (nn_error "dimension mismatch"), w).
Proof.
  intros Ha Hb [Hout Hin]. unfold connect, bind.
  rewrite (deref_Some a la w Ha).
  destruct (Z.eqb_spec (out_size la) 0) as [E | _]; [contradiction |].
  rewrite (deref_Some b lb w Hb). unfold ret.
  destruct (Z.eqb_spec (in_size lb) (out_size la)) as [E | _]; [contradiction |].
  reflexivity.
Qed.

Lemma connect_returns (a b : addr) (la lb : layer_base) (w : world) :
  heap w !! a = Some la -> heap w !! b = Some lb -> ¬ mismatch la lb ->
  connect a (Some b) w =
    (Val tt,
     set_heap (<[b := set_prev_ (Some a) (after_next a b la lb)]>
                 (<[a := set_next_ (Some b) la]> (heap w))) w).
Proof.
  intros Ha Hb Hok. unfold connect, bind.
  rewrite (deref_Some a la w Ha).
  assert (Hstep :
    (modify (Some a) (set_next_ (Some b));;; modify (Some b) (set_prev_ (Some a))) w =
    (Val tt,
     set_heap (<[b := set_prev_ (Some a) (after_next a b la lb)]>
                 (<[a := set_next_ (Some b) la]> (heap w))) w)).
  { unfold bind. rewrite (modify_Some a _ la w Ha).
    rewrite (modify_Some b _ (after_next a b la lb)).
    - reflexivity.
    - rewrite heap_set_heap. unfold after_next.
      destruct (decide (a = b)) as [-> | Hne].
      + apply lookup_insert_eq.
      + rewrite lookup_insert_ne by exact Hne. exact Hb. }
  destruct (Z.eqb_spec (out_size la) 0) as [E | Hout].
  - unfold ret. exact Hstep.
  - rewrite (deref_Some b lb w Hb). unfold ret.
    destruct (Z.eqb_spec (in_size lb) (out_size la)) as [E | Hin].
    + exact Hstep.
    + exfalso. apply Hok. split; assumption.
Qed.

(** C1. For layers A and B, [A.connect(B)] throws exactly when
    [A.out_size() != 0] and [B.in_size() != A.out_size()], and what it throws
    is the dimension mismatch; when it throws, the world, and with it both
    links, is as before the call; when it does not, it returns, [next_] of A
    is B and [prev_] of B is A. *)
Theorem connect_raises_iff_mismatch (a b : addr) (la lb : layer_base) (w : world) :
  heap w !! a = Some la -> heap w !! b = Some lb ->
  ((∃ e, fst (connect a (Some b) w) = Throw e) ↔ mismatch la lb) ∧
  (mismatch la lb ->
     connect a (Some b) w = (Throw (nn_error "dimension mismatch"), w)) ∧
  (¬ mismatch la lb ->
     ∃ w' la' lb',
       connect a (Some b) w = (Val tt, w') ∧
       heap w' !! a = Some la' ∧ next_ la' = Some b ∧
       heap w' !! b = Some lb' ∧ prev_ lb' = Some a).
Proof.
  intros Ha Hb. split; [| split].
  - split.
    + intros [e He]. destruct (mismatch_dec la lb) as [Hm | Hm]; [exact Hm |].
      rewrite (connect_returns a b la lb w Ha Hb Hm) in He. discriminate He.
    + intros Hm. exists (nn_error "dimension mismatch").
      now rewrite (connect_throws a b la lb w Ha Hb Hm).
  - apply connect_throws; assumption.
  - intros Hm. rewrite (connect_returns a b la lb w Ha Hb Hm).
    destruct (decide (a = b)) as [Heq | Hne].
    + subst b. eexists _, _, _. split; [reflexivity |].
      rewrite heap_set_heap, !lookup_insert_eq.
      unfold after_next. rewrite decide_True by reflexivity.
      repeat split; reflexivity.
    + eexists _, _, _. split; [reflexivity |].
      rewrite heap_set_heap, lookup_insert_eq, lookup_insert_ne by congruence.
      rewrite lookup_insert_eq. repeat split; reflexivity.
Qed.

(** C2, as the code has it. When [A.connect(B)] returns, [prev_] of B is A
    and [A.out_size()] is 0 or equal to [B.in_size()]; the call assigns the
    two links only, so both sizes are what they were before it: an
    [out_size] of 0 stays 0. *)
Theorem connect_success_sizes (a b : addr) (la lb : layer_base) (w w' : world) :
  heap w !! a = Some la -> heap w !! b = Some lb ->
  connect a (Some b) w = (Val tt, w') ->
  ∃ la' lb',
    heap w' !! a = Some la' ∧ heap w' !! b = Some lb' ∧
    prev_ lb' = Some a ∧
    (out_size la' = 0 ∨ out_size la' = in_size lb') ∧
    out_size la' = out_size la ∧ in_size lb' = in_size lb.
Proof.
  intros Ha Hb Hc.
  destruct (mismatch_dec la lb) as [Hm | Hm].
  { rewrite (connect_throws a b la lb w Ha Hb Hm) in Hc. discriminate Hc. }
  rewrite (connect_returns a b la lb w Ha Hb Hm) in Hc.
  injection Hc as <-.
  assert (Hsz : out_size la = 0 ∨ out_size la = in_size lb).
  { unfold mismatch in Hm.
    destruct (Z.eq_dec (out_size la) 0); [now left |].
    destruct (Z.eq_dec (in_size lb) (out_size la)); [now right | tauto]. }
  rewrite heap_set_heap. unfold after_next.
  destruct (decide (a = b)) as [Heq | Hne].
  - subst b. assert (lb = la) by congruence. subst lb.
    eexists _, _. rewrite !lookup_insert_eq.
    repeat split; try reflexivity. exact Hsz.
  - eexists _, _. rewrite lookup_insert_eq, lookup_insert_ne by congruence.
    rewrite lookup_insert_eq.
    repeat split; try reflexivity. exact Hsz.
Qed.

(** ** The sign of the bound of [init_weight] *)

Lemma shr_1_nonneg (mrs : shr_record) : 0 <= shr_m mrs -> 0 <= shr_m (shr_1 mrs).
Proof.
  destruct mrs as [m r s]. simpl.
  destruct m as [| p | p]; simpl; [lia | | lia].
  destruct p; simpl; lia.
Qed.

Lemma iter_pos_nonneg (p : positive) (mrs : shr_record) :
  0 <= shr_m mrs -> 0 <= shr_m (SpecFloat.iter_pos shr_1 p mrs).
Proof.
  revert mrs. induction p as [p IH | p IH |]; intros mrs Hm; simpl.
  - apply IH, IH, shr_1_nonneg, Hm.
  - apply IH, IH, Hm.
  - apply shr_1_nonneg, Hm.
Qed.

Lemma shr_fexp_nonneg (prec emax m e : Z) (l : location) :
  0 <= m -> 0 <= shr_m (fst (shr_fexp prec emax m e l)).
Proof.
  intros Hm. unfold shr_fexp, shr.
  assert (H0 : 0 <= shr_m (shr_record_of_loc m l)).
  { destruct l as [| []]; exact Hm. }
  destruct (fexp prec emax (Zdigits2 m + e) - e); simpl; try exact H0.
  apply iter_pos_nonneg, H0.
Qed.

Lemma round_nearest_even_nonneg (m : Z) (l : location) :
  0 <= m -> 0 <= round_nearest_even m l.
Proof.
  intros Hm. destruct l as [| []]; simpl; try lia.
  destruct (Z.even m); lia.
Qed.

(** Rounding a mantissa that is not negative gives no NaN and keeps the
    sign plus. *)
Lemma binary_round_aux_sign (prec emax : Z) (mx ex : Z) (lx : location) :
  0 <= mx -> sign_plus (binary_round_aux prec emax false mx ex lx).
Proof.
  intros Hm. unfold binary_round_aux.
  pose proof (shr_fexp_nonneg prec emax mx ex lx Hm) as H1.
  destruct (shr_fexp prec emax mx ex lx) as [mrs' e']. simpl in H1.
  pose proof (shr_fexp_nonneg prec emax _ e' loc_Exact
                (round_nearest_even_nonneg _ (loc_of_shr_record mrs') H1)) as H2.
  destruct (shr_fexp prec emax _ e' loc_Exact) as [mrs'' e'']. simpl in H2.
  destruct (shr_m mrs'') as [| m | m]; simpl; [reflexivity | | lia].
  destruct (e'' <=? emax - prec); reflexivity.
Qed.

Lemma binary_normalize_sign (prec emax m e : Z) :
  0 <= m -> sign_plus (binary_normalize prec emax m e false).
Proof.
  intros Hm. destruct m as [| p | p]; simpl; [reflexivity | | lia].
  unfold binary_round.
  destruct (shl_align p e _) as [mz ez].
  apply binary_round_aux_sign. lia.
Qed.

Lemma SFsqrt_sign (prec emax : Z) (x : spec_float) :
  sign_plus x -> sign_plus (SFsqrt prec emax x).
Proof.
  destruct x as [s | s | | s m e]; simpl; intros Hs; try subst s; try exact Hs;
    try reflexivity.
  unfold SFsqrt_core_binary.
  set (e' := Z.min _ _). set (s := e - 2 * e').
  set (m' := match s with
             | Z0 => Z.pos m
             | Z.pos _ => Z.shiftl (Z.pos m) s
             | Z.neg _ => 0
             end).
  assert (Hm' : 0 <= m').
  { unfold m'. destruct s; try lia. apply Z.shiftl_nonneg. lia. }
  pose proof (Z.sqrtrem_spec m' Hm') as Hsq.
  destruct (Z.sqrtrem m') as [q r].
  apply binary_round_aux_sign. lia.
Qed.

Lemma SFdiv_sign (prec emax : Z) (mx : positive) (ex : Z) (y : spec_float) :
  sign_plus y -> sign_plus (SFdiv prec emax (S754_finite false mx ex) y).
Proof.
  intros Hy.
  destruct y as [sy | sy | | sy my ey]; simpl in Hy; try contradiction; subst sy;
    simpl; try reflexivity.
  unfold SFdiv_core_binary.
  set (e' := Z.min _ _). set (s := ex - ey - e').
  set (m' := match s with
             | Z0 => Z.pos mx
             | Z.pos _ => Z.shiftl (Z.pos mx) s
             | Z.neg _ => 0
             end).
  assert (Hm' : 0 <= m').
  { unfold m'. destruct s; try lia. apply Z.shiftl_nonneg. lia. }
  pose proof (Z_div_mod m' (Z.pos my) ltac:(lia)) as Hd.
  destruct (Z.div_eucl m' (Z.pos my)) as [q r].
  apply binary_round_aux_sign. nia.
Qed.

Lemma SFleb_opp_self (x : spec_float) : sign_plus x -> SFleb (SFopp x) x = true.
Proof.
  destruct x as [s | s | | s m e]; simpl; intros Hs; try contradiction; subst s;
    reflexivity.
Qed.

Lemma weight_base_sign (n : Z) : 0 <= n -> sign_plus (Prim2SF (weight_base_of n)).
Proof.
  intros Hn. unfold weight_base_of, float_of_int.
  destruct (Z.ltb_spec n 0) as [Hlt | _]; [lia |].
  rewrite div_spec, sqrt_spec, of_uint63_spec.
  change (Prim2SF 0.5) with (S754_finite false 4503599627370496 (-53)).
  apply SFdiv_sign, SFsqrt_sign, binary_normalize_sign, Uint63.to_Z_bounded.
Qed.

(** For a fan-in that is not negative the interval of [init_weight] is not
    empty: [-weight_base <= weight_base] in binary64. *)
Lemma weight_base_interval (n : Z) :
  0 <= n -> (- weight_base_of n <=? weight_base_of n)%float = true.
Proof.
  intros Hn. rewrite leb_spec, opp_spec.
  apply SFleb_opp_self, weight_base_sign, Hn.
Qed.

(** ** [init_weight] *)

Lemma uniform_rand_run (a : addr) (f : member) (lo hi : float_t)
    (l : layer_base) (w : world) :
  heap w !! a = Some l ->
  uniform_rand a f lo hi w =
    (Val tt,
     mk_world
       (<[a := set_member f (fst (uniform_rand_fill (get_member f l) lo hi (gen w))) l]>
          (heap w))
       (snd (uniform_rand_fill (get_member f l) lo hi (gen w)))
       (calls w)).
Proof.
  intros Hl. unfold uniform_rand, bind, get_gen, put_gen.
  rewrite (load_member a f l w Hl).
  destruct (uniform_rand_fill (get_member f l) lo hi (gen w)) as [v' g'].
  cbn [fst snd].
  rewrite (store_Some a f v' l) by exact Hl. reflexivity.
Qed.

Lemma fill_member_run (a : addr) (f : member) (x : float_t)
    (l : layer_base) (w : world) :
  heap w !! a = Some l ->
  fill_member a f x w =
    (Val tt, set_heap (<[a := set_member f (std_fill (get_member f l) x) l]> (heap w)) w).
Proof.
  intros Hl. unfold fill_member, bind. rewrite (load_member a f l w Hl).
  now apply store_Some.
Qed.

Lemma init_weight_run (a : addr) (l : layer_base) (w : world) :
  heap w !! a = Some l ->
  init_weight a w =
    (Val tt,
     mk_world (<[a := fst (init_weight_layer l (gen w))]> (heap w))
              (snd (init_weight_layer l (gen w))) (calls w)).
Proof.
  intros Hl. unfold init_weight, bind. rewrite (deref_Some a l w Hl).
  rewrite (uniform_rand_run a m_W _ _ l w Hl).
  erewrite uniform_rand_run by (cbn [heap]; apply lookup_insert_eq).
  erewrite fill_member_run by (cbn [heap]; apply lookup_insert_eq).
  erewrite fill_member_run by (cbn [heap set_heap]; apply lookup_insert_eq).
  unfold init_weight_layer, set_heap. cbn [heap gen calls fst snd].
  rewrite !insert_insert_eq. reflexivity.
Qed.

Lemma uniform_rand_fill_length (v : vec_t) (lo hi : float_t) (g : rng_state) :
  length (fst (uniform_rand_fill v lo hi g)) = length v.
Proof.
  revert g. induction v as [| x t IH]; intros g; simpl; [reflexivity |].
  destruct (uniform_rand1 lo hi g) as [y g1].
  specialize (IH g1). destruct (uniform_rand_fill t lo hi g1) as [t' g2].
  simpl in *. now rewrite IH.
Qed.

(** The draws do not read the elements they replace. *)
Lemma uniform_rand_fill_fresh (v v2 : vec_t) (lo hi : float_t) (g : rng_state) :
  length v2 = length v ->
  uniform_rand_fill v2 lo hi g = uniform_rand_fill v lo hi g.
Proof.
  revert v2 g. induction v as [| x t IH]; intros [| x2 t2] g Hlen;
    simpl in *; try discriminate; [reflexivity |].
  destruct (uniform_rand1 lo hi g) as [y g1].
  rewrite (IH t2 g1) by congruence. reflexivity.
Qed.

Lemma uniform_rand_fill_within (v : vec_t) (lo hi : float_t) (g : rng_state) :
  draws_in_range -> (lo <=? hi)%float = true ->
  within lo hi (fst (uniform_rand_fill v lo hi g)).
Proof.
  intros Hdraw Hle. revert g.
  induction v as [| x t IH]; intros g; simpl; [constructor |].
  pose proof (Hdraw lo hi g Hle) as Hx.
  destruct (uniform_rand1 lo hi g) as [y g1].
  specialize (IH g1). destruct (uniform_rand_fill t lo hi g1) as [t' g2].
  simpl in *. constructor; assumption.
Qed.

Lemma std_fill_replicate (v : vec_t) (x : float_t) :
  std_fill v x = replicate (length v) x.
Proof. induction v as [| y t IH]; simpl; [reflexivity | now rewrite IH]. Qed.

Lemma std_fill_zero (v : vec_t) : all_zero (std_fill v 0%float).
Proof. induction v as [| y t IH]; simpl; constructor; auto. Qed.

(** C3. For a layer whose fan-in is positive, with a random source that
    draws from the interval it is given, a call of [init_weight] returns,
    whatever the parameters were before; [W_], [b_], [Whessian_] and
    [bhessian_] then have the lengths they had, every element of [W_] and of
    [b_] lies between [-w] and [w] for [w = 0.5 / sqrt(fan_in_size())], and
    every element of [Whessian_] and of [bhessian_] is zero. The four
    vectors are overwritten: called on any other contents of the same
    lengths, with the same generator, the call leaves the same four
    vectors. *)
Theorem init_weight_bounds (a : addr) (l : layer_base) (w : world) :
  draws_in_range ->
  heap w !! a = Some l ->
  0 < fan_in_size l ->
  ∃ (w' : world) (l' : layer_base),
    init_weight a w = (Val tt, w') ∧ heap w' !! a = Some l' ∧
    length (W_ l') = length (W_ l) ∧ length (b_ l') = length (b_ l) ∧
    length (Whessian_ l') = length (Whessian_ l) ∧
    length (bhessian_ l') = length (bhessian_ l) ∧
    within (- weight_base_of (fan_in_size l))%float (weight_base_of (fan_in_size l)) (W_ l') ∧
    within (- weight_base_of (fan_in_size l))%float (weight_base_of (fan_in_size l)) (b_ l') ∧
    all_zero (Whessian_ l') ∧ all_zero (bhessian_ l') ∧
    ∀ (w2 : world) (l2 : layer_base),
      heap w2 !! a = Some l2 ->
      gen w2 = gen w -> fan_in_size l2 = fan_in_size l ->
      length (W_ l2) = length (W_ l) -> length (b_ l2) = length (b_ l) ->
      length (Whessian_ l2) = length (Whessian_ l) ->
      length (bhessian_ l2) = length (bhessian_ l) ->
      ∃ (w2' : world) (l2' : layer_base),
        init_weight a w2 = (Val tt, w2') ∧ heap w2' !! a = Some l2' ∧
        W_ l2' = W_ l' ∧ b_ l2' = b_ l' ∧
        Whessian_ l2' = Whessian_ l' ∧ bhessian_ l2' = bhessian_ l'.
Proof.
  intros Hdraw Hl Hfan.
  assert (Hle := weight_base_interval (fan_in_size l) (Z.lt_le_incl _ _ Hfan)).
  eexists _, _. split; [apply (init_weight_run a l w Hl) |].
  cbn [heap]. split; [apply lookup_insert_eq |].
  unfold init_weight_layer. cbn [fst snd].
  cbn [W_ b_ Whessian_ bhessian_ set_member].
  split; [apply uniform_rand_fill_length |].
  split; [apply uniform_rand_fill_length |].
  split; [now rewrite std_fill_replicate, length_replicate |].
  split; [now rewrite std_fill_replicate, length_replicate |].
  repeat split.
  - apply uniform_rand_fill_within; assumption.
  - apply uniform_rand_fill_within; assumption.
  - apply std_fill_zero.
  - apply std_fill_zero.
  - intros w2 l2 Hl2 Hgen Hfan2 HW Hb HWh Hbh.
    eexists _, _. split; [apply (init_weight_run a l2 w2 Hl2) |].
    cbn [heap]. split; [apply lookup_insert_eq |].
    unfold init_weight_layer. cbn [fst snd]. rewrite Hgen, Hfan2.
    rewrite (uniform_rand_fill_fresh (W_ l) (W_ l2)) by exact HW.
    rewrite (uniform_rand_fill_fresh (b_ l) (b_ l2)) by exact Hb.
    rewrite !std_fill_replicate, HWh, Hbh.
    destruct l, l2; repeat split; reflexivity.
Qed.

(** ** The sentinel [input_layer] *)

(** C4. On a sentinel that has no successor, [forward_propagation(v)] returns
    a reference to [output_], which then holds a copy of [v];
    [back_propagation(d, updater)] returns [d] and leaves the world as it
    was, so that the updater has been called zero times;
    [back_propagation_2nd(d2)] returns [d2] in the same way. *)
Theorem sentinel_pass_through (a : addr) (l : layer_base) (w : world)
    (inp d d2 : vref) (v : vec_t) (u : ptr) (fuel : nat) :
  heap w !! a = Some l -> vptr l = class_input_layer -> next_ l = None ->
  load inp w = (Val v, w) ->
  (∃ w' : world,
     forward_propagation (S fuel) (Some a) inp w = (Val (output a), w') ∧
     load (output a) w' = (Val v, w') ∧
     heap w' = <[a := set_member m_output v l]> (heap w) ∧
     gen w' = gen w ∧ calls w' = calls w) ∧
  back_propagation (Some a) d u w = (Val d, w) ∧
  updater_calls (calls (snd (back_propagation (Some a) d u w))) =
    updater_calls (calls w) ∧
  back_propagation_2nd (Some a) d2 w = (Val d2, w).
Proof.
  intros Hl Hcls Hnext Hin.
  assert (Hback : back_propagation (Some a) d u w = (Val d, w)).
  { unfold back_propagation, bind. now rewrite (deref_Some a l w Hl), Hcls. }
  split; [| split; [exact Hback | split; [now rewrite Hback |]]].
  - eexists. split; [| split; [| split; [| split]]].
    + cbn [forward_propagation]. unfold bind at 1.
      rewrite (deref_Some a l w Hl), Hcls.
      unfold input_layer_forward_propagation, bind. rewrite Hin.
      rewrite (store_Some a m_output v l w Hl).
      erewrite deref_Some by (rewrite heap_set_heap; apply lookup_insert_eq).
      change (next_ (set_member m_output v l)) with (next_ l).
      rewrite Hnext. reflexivity.
    + unfold output. erewrite load_member
        by (rewrite heap_set_heap; apply lookup_insert_eq).
      reflexivity.
    + reflexivity.
    + reflexivity.
    + reflexivity.
  - unfold back_propagation_2nd, bind. now rewrite (deref_Some a l w Hl), Hcls.
Qed.

(** C9. For a sentinel, [fan_in_size()] is 1 and [connection_size()] is its
    [in_size()]; the divisor [sqrt(fan_in_size())] of [init_weight] is then
    1, which is not zero, and the bound is 0.5. *)
Theorem sentinel_fan_in (l : layer_base) :
  vptr l = class_input_layer ->
  fan_in_size l = 1 ∧ connection_size l = in_size l ∧
  PrimFloat.sqrt (float_of_int (fan_in_size l)) = 1%float ∧
  (PrimFloat.sqrt (float_of_int (fan_in_size l)) =? 0)%float = false ∧
  weight_base_of (fan_in_size l) = 0.5%float.
Proof.
  intros Hcls. unfold fan_in_size, connection_size, weight_base_of.
  rewrite Hcls. unfold input_layer_fan_in_size, input_layer_connection_size.
  repeat split; reflexivity.
Qed.

(** ** [divide_hessian] *)

Lemma for_loop_divide (n : Z) (rest done : vec_t) :
  for_loop (length rest) (length done) (divide_at n) (done ++ rest) =
  done ++ map (fun x => (x / float_of_int n)%float) rest.
Proof.
  revert done. induction rest as [| x t IH]; intros done;
    cbn [for_loop length map]; [reflexivity |].
  unfold divide_at at 2.
  rewrite list_lookup_middle by reflexivity.
  replace (length done) with (length done + 0)%nat at 2 by lia.
  rewrite insert_app_r. simpl.
  replace (S (length done)) with (length (done ++ [(x / float_of_int n)%float]))
    by (rewrite length_app; simpl; lia).
  replace (done ++ (x / float_of_int n)%float :: t)
    with ((done ++ [(x / float_of_int n)%float]) ++ t)
    by (now rewrite <- app_assoc).
  rewrite IH. now rewrite <- app_assoc.
Qed.

(** The two loops of [divide_hessian] divide every element. *)
Lemma divide_elements_map (v : vec_t) (n : Z) :
  divide_elements v n = map (fun x => (x / float_of_int n)%float) v.
Proof. unfold divide_elements. exact (for_loop_divide n v []). Qed.

Lemma divide_hessian_run (a : addr) (l : layer_base) (w : world) (n : Z) :
  heap w !! a = Some l ->
  divide_hessian a n w =
    (Val tt, set_heap (<[a := divide_hessian_layer n l]> (heap w)) w).
Proof.
  intros Hl. unfold divide_hessian, bind.
  rewrite (load_member a m_Whessian l w Hl).
  rewrite (store_Some a m_Whessian _ l w Hl).
  erewrite load_member by (rewrite heap_set_heap; apply lookup_insert_eq).
  erewrite store_Some by (rewrite heap_set_heap; apply lookup_insert_eq).
  rewrite heap_set_heap, set_heap_set_heap, insert_insert_eq. reflexivity.
Qed.

(** C6. For [n != 0], [divide_hessian(n)] returns and leaves in the object
    itself every element of [Whessian_] and of [bhessian_] divided by [n];
    the weights, the biases, the buffers, the sizes and the links of the
    layer are as before, and so is the rest of the world. *)
Theorem divide_hessian_elements (a : addr) (l : layer_base) (w : world) (n : Z) :
  heap w !! a = Some l -> n ≠ 0 ->
  ∃ l' : layer_base,
    divide_hessian a n w = (Val tt, set_heap (<[a := l']> (heap w)) w) ∧
    Whessian_ l' = map (fun x => (x / float_of_int n)%float) (Whessian_ l) ∧
    bhessian_ l' = map (fun x => (x / float_of_int n)%float) (bhessian_ l) ∧
    W_ l' = W_ l ∧ b_ l' = b_ l ∧ output_ l' = output_ l ∧
    prev_delta_ l' = prev_delta_ l ∧ prev_delta2_ l' = prev_delta2_ l ∧
    in_size_ l' = in_size_ l ∧ out_size_ l' = out_size_ l ∧
    next_ l' = next_ l ∧ prev_ l' = prev_ l ∧ vptr l' = vptr l.
Proof.
  intros Hl _. exists (divide_hessian_layer n l).
  split; [apply divide_hessian_run, Hl |].
  unfold divide_hessian_layer. cbn [Whessian_ bhessian_ set_member].
  rewrite !divide_elements_map. repeat split; reflexivity.
Qed.

Lemma map_divide_one_zero (v : vec_t) :
  all_zero v -> all_zero (map (fun x => (x / float_of_int 1)%float) v).
Proof.
  unfold all_zero. induction 1 as [| x t Hx Ht IH]; simpl; constructor; [| exact IH].
  subst x. reflexivity.
Qed.

(** C7. [init_weight] followed at once by [divide_hessian(1)] returns and
    leaves every element of [Whessian_] and of [bhessian_] equal to zero. *)
Theorem init_then_divide_by_one (a : addr) (l : layer_base) (w : world) :
  heap w !! a = Some l ->
  ∃ (w' : world) (l' : layer_base),
    (init_weight a ;;; divide_hessian a 1) w = (Val tt, w') ∧
    heap w' !! a = Some l' ∧
    all_zero (Whessian_ l') ∧ all_zero (bhessian_ l').
Proof.
  intros Hl. unfold bind. rewrite (init_weight_run a l w Hl).
  erewrite divide_hessian_run by (cbn [heap]; apply lookup_insert_eq).
  eexists _, _. split; [reflexivity |].
  rewrite heap_set_heap. split; [apply lookup_insert_eq |].
  unfold divide_hessian_layer, init_weight_layer.
  cbn [fst snd Whessian_ bhessian_ set_member].
  rewrite !divide_elements_map.
  split; apply map_divide_one_zero, std_fill_zero.
Qed.

(** ** Construction and the sizes of the buffers *)

(** [resize] on an empty vector. *)
Lemma vector_resize_nil (n : Z) :
  vector_resize [] n =
    match refusal n with
    | Some e => Throw e
    | None => Val (replicate (Z.to_nat n) 0%float)
    end.
Proof.
  unfold vector_resize, refusal.
  change (Z.of_nat (length (@nil float))) with 0.
  destruct (n <? 0); [reflexivity |].
  destruct ((n <=? 0) || allocates n); [| reflexivity].
  now rewrite resize_nil.
Qed.

Lemma refusal_supplied (n : Z) : supplied n -> refusal n = None.
Proof.
  intros [Hn Hal]. unfold refusal.
  destruct (Z.ltb_spec n 0); [lia |].
  destruct (Z.leb_spec n 0); [reflexivity |].
  rewrite Hal by lia. reflexivity.
Qed.

Lemma refusal_None (n : Z) : refusal n = None -> supplied n.
Proof.
  unfold refusal, supplied.
  destruct (Z.ltb_spec n 0); [discriminate |].
  destruct (Z.leb_spec n 0); cbn [orb].
  - intros _. split; [assumption | lia].
  - destruct (allocates n); [| discriminate]. intros _. split; [assumption | reflexivity].
Qed.

Lemma resize_member_run (a : addr) (f : member) (n : Z) (l : layer_base) (w : world) :
  heap w !! a = Some l -> get_member f l = [] ->
  resize_member a f n w =
    match refusal n with
    | Some e => (Throw e, w)
    | None =>
        (Val tt,
         set_heap (<[a := set_member f (replicate (Z.to_nat n) 0%float) l]> (heap w)) w)
    end.
Proof.
  intros Hl Hnil. unfold resize_member, bind. rewrite (load_member a f l w Hl).
  rewrite Hnil, vector_resize_nil. destruct (refusal n); [reflexivity |].
  now apply store_Some.
Qed.

Ltac throws_back :=
  match goal with
  | Hb : ∀ l, set_heap _ _ = _ |- (_, ?x) = _ => now rewrite Hb
  end.

Ltac step_this :=
  first
    [ erewrite modify_Some by (rewrite ?heap_set_heap; apply lookup_insert_eq)
    | erewrite resize_member_run
        by first [ rewrite ?heap_set_heap; apply lookup_insert_eq | reflexivity ] ];
  rewrite ?heap_set_heap, ?set_heap_set_heap, ?insert_insert_eq;
  cbn [set_member get_member set_in_size_ set_out_size_
       vptr in_size_ out_size_ next_ prev_ output_ prev_delta_ W_ b_
       Whessian_ bhessian_ prev_delta2_].

(** The constructor throws when one of the calls of [resize] does, and then
    leaves no object; otherwise it returns and leaves [new_layer]. *)
Lemma layer_base_ctor_run (cls : dyn_class) (this : addr)
    (in_dim out_dim weight_dim bias_dim : Z) (w : world) :
  heap w !! this = None ->
  layer_base_ctor cls this in_dim out_dim weight_dim bias_dim w =
    match set_size_refusal in_dim out_dim weight_dim bias_dim with
    | Some e => (Throw e, w)
    | None =>
        (Val tt,
         set_heap (<[this := new_layer cls in_dim out_dim weight_dim bias_dim]> (heap w)) w)
    end.
Proof.
  intros Hfresh. unfold layer_base_ctor. rewrite Hfresh.
  assert (Hback : ∀ l : layer_base,
            set_heap (delete this (<[this := l]> (heap w))) w = w).
  { intros l. rewrite delete_insert_id by exact Hfresh. apply set_heap_id. }
  assert (Hback' : ∀ l : layer_base,
            set_heap (delete this (heap (set_heap (<[this := l]> (heap w)) w)))
              (set_heap (<[this := l]> (heap w)) w) = w).
  { intros l. rewrite heap_set_heap, set_heap_set_heap. apply Hback. }
  unfold set_size_refusal, set_size, bind.
  do 2 step_this.
  step_this. destruct (refusal out_dim) as [e |] eqn:Ho; [throws_back |].
  step_this. destruct (refusal in_dim) as [e |] eqn:Hi; [throws_back |].
  step_this. destruct (refusal weight_dim) as [e |] eqn:Hw; [throws_back |].
  step_this. destruct (refusal bias_dim) as [e |] eqn:Hb; [throws_back |].
  step_this. rewrite Hw.
  step_this. rewrite Hb.
  step_this. rewrite Hi.
  unfold new_layer. reflexivity.
Qed.

(** The constructor returns exactly when every dimension is one that
    [resize] accepts. *)
Lemma set_size_refusal_None (i o wd bd : Z) :
  set_size_refusal i o wd bd = None <->
  supplied i ∧ supplied o ∧ supplied wd ∧ supplied bd.
Proof.
  unfold set_size_refusal. split.
  - destruct (refusal o) eqn:Ho; [discriminate |].
    destruct (refusal i) eqn:Hi; [discriminate |].
    destruct (refusal wd) eqn:Hw; [discriminate |].
    intros Hb. auto using refusal_None.
  - intros (Hi & Ho & Hw & Hb).
    now rewrite (refusal_supplied o Ho), (refusal_supplied i Hi),
      (refusal_supplied wd Hw), (refusal_supplied bd Hb).
Qed.

Lemma refusal_Some (n : Z) (e : exn) :
  refusal n = Some e ->
  (n < 0 ∧ e = length_error) ∨ (0 < n ∧ allocates n = false ∧ e = bad_alloc).
Proof.
  unfold refusal. destruct (Z.ltb_spec n 0) as [Hn | Hn].
  - intros He. injection He as <-. left. split; [exact Hn | reflexivity].
  - destruct (Z.leb_spec n 0) as [Hz | Hz]; cbn [orb]; [discriminate |].
    destruct (allocates n) eqn:Hal; [discriminate |].
    intros He. injection He as <-. right.
    split; [exact Hz | split; [reflexivity | reflexivity]].
Qed.

(** The exception of a constructor that throws: [std::length_error] needs a
    negative dimension, and with none the exception is [std::bad_alloc]. *)
Lemma set_size_refusal_Some (i o wd bd : Z) (e : exn) :
  set_size_refusal i o wd bd = Some e ->
  (e = length_error ∧ (i < 0 ∨ o < 0 ∨ wd < 0 ∨ bd < 0)) ∨
  (e = bad_alloc ∧
   ∃ n : Z, (n = i ∨ n = o ∨ n = wd ∨ n = bd) ∧ 0 < n ∧ allocates n = false).
Proof.
  assert (Hone : ∀ n : Z, n = i ∨ n = o ∨ n = wd ∨ n = bd -> refusal n = Some e ->
            (e = length_error ∧ (i < 0 ∨ o < 0 ∨ wd < 0 ∨ bd < 0)) ∨
            (e = bad_alloc ∧
             ∃ n : Z, (n = i ∨ n = o ∨ n = wd ∨ n = bd) ∧ 0 < n ∧ allocates n = false)).
  { intros n Hn Hr. destruct (refusal_Some n e Hr) as [[Hneg ->] | (Hpos & Hal & ->)].
    - left. split; [reflexivity | lia].
    - right. split; [reflexivity |]. exists n. auto. }
  unfold set_size_refusal.
  destruct (refusal o) eqn:Ho.
  { intros He. injection He as ->. apply (Hone o); auto. }
  destruct (refusal i) eqn:Hi.
  { intros He. injection He as ->. apply (Hone i); auto. }
  destruct (refusal wd) eqn:Hw.
  { intros He. injection He as ->. apply (Hone wd); auto. }
  intros Hb. apply (Hone bd); auto.
Qed.

Lemma same_shape_refl (l : layer_base) : same_shape l l.
Proof. repeat split; reflexivity. Qed.

Lemma same_shape_trans (l1 l2 l3 : layer_base) :
  same_shape l1 l2 -> same_shape l2 l3 -> same_shape l1 l3.
Proof.
  intros (Hi & Ho & Hm) (Hi' & Ho' & Hm').
  split; [congruence | split; [congruence |]].
  intros f. now rewrite Hm', Hm.
Qed.

Lemma same_shape_sized (l l' : layer_base) :
  same_shape l l' ->
  (buffers_sized l -> buffers_sized l') ∧
  length (W_ l') = length (W_ l) ∧ length (b_ l') = length (b_ l) ∧
  param_size l' = param_size l.
Proof.
  intros (Hi & Ho & Hm).
  pose proof (Hm m_output) as H1. pose proof (Hm m_prev_delta) as H2.
  pose proof (Hm m_prev_delta2) as H3. pose proof (Hm m_W) as H4.
  pose proof (Hm m_b) as H5. cbn [get_member] in *.
  unfold buffers_sized, param_size. rewrite Hi, Ho, H1, H2, H3, H4, H5.
  repeat split; tauto.
Qed.

Lemma sizes_step_refl (h : gmap addr layer_base) : sizes_step h h.
Proof. intros a l Hl. exists l. split; [exact Hl | apply same_shape_refl]. Qed.

Lemma sizes_step_trans (h1 h2 h3 : gmap addr layer_base) :
  sizes_step h1 h2 -> sizes_step h2 h3 -> sizes_step h1 h3.
Proof.
  intros H12 H23 a l3 Hl3.
  destruct (H23 a l3 Hl3) as (l2 & Hl2 & Hs23).
  destruct (H12 a l2 Hl2) as (l1 & Hl1 & Hs12).
  exists l1. split; [exact Hl1 | eapply same_shape_trans; eassumption].
Qed.

Lemma sizes_step_insert (h : gmap addr layer_base) (a : addr) (l l2 : layer_base) :
  h !! a = Some l -> same_shape l l2 -> sizes_step h (<[a := l2]> h).
Proof.
  intros Hl Hs x l' Hx. destruct (decide (a = x)) as [-> | Hne].
  - rewrite lookup_insert_eq in Hx. injection Hx as <-. now exists l.
  - rewrite lookup_insert_ne in Hx by exact Hne.
    exists l'. split; [exact Hx | apply same_shape_refl].
Qed.

Lemma keeps_sizes_step (c : M world unit) :
  (∀ w : world, sizes_step (heap w) (heap (snd (c w)))) -> keeps_sizes c.
Proof.
  intros Hc w a l' Hl'. destruct (Hc w a l' Hl') as (l & Hl & Hs).
  exists l. split; [exact Hl | now apply same_shape_sized].
Qed.

Lemma same_shape_set_next (p : ptr) (l : layer_base) : same_shape l (set_next_ p l).
Proof. repeat split; intros []; reflexivity. Qed.

Lemma same_shape_set_prev (p : ptr) (l : layer_base) : same_shape l (set_prev_ p l).
Proof. repeat split; intros []; reflexivity. Qed.

Lemma connect_sizes_step (a : addr) (p : ptr) (w : world) :
  sizes_step (heap w) (heap (snd (connect a p w))).
Proof.
  assert (Hlinks : ∀ w1 : world,
    sizes_step (heap w1)
      (heap (snd ((modify (Some a) (set_next_ p) ;;;
                   modify p (set_prev_ (Some a))) w1)))).
  { intros w1. unfold modify, bind, deref.
    destruct (heap w1 !! a) as [la |] eqn:Ha; [| apply sizes_step_refl].
    cbn [snd heap set_heap].
    assert (H1 : sizes_step (heap w1) (<[a := set_next_ p la]> (heap w1))).
    { eapply sizes_step_insert; [exact Ha | apply same_shape_set_next]. }
    destruct p as [b |]; [| exact H1].
    destruct (<[a := set_next_ (Some b) la]> (heap w1) !! b) as [lb |] eqn:Hb;
      [| exact H1].
    cbn [snd heap set_heap]. eapply sizes_step_trans; [exact H1 |].
    eapply sizes_step_insert; [exact Hb | apply same_shape_set_prev]. }
  unfold connect. unfold bind at 1 2. unfold deref at 1.
  destruct (heap w !! a) as [la |] eqn:Ha; [| apply sizes_step_refl].
  destruct (out_size la =? 0).
  - unfold ret. apply Hlinks.
  - unfold bind, deref.
    destruct p as [b |]; [| apply sizes_step_refl].
    destruct (heap w !! b) as [lb |] eqn:Hb; [| apply sizes_step_refl].
    unfold ret. destruct (negb (in_size lb =? out_size la));
      [apply sizes_step_refl |].
    apply (Hlinks w).
Qed.

Lemma connect_keeps_sizes (a : addr) (p : ptr) : keeps_sizes (connect a p).
Proof. apply keeps_sizes_step. intros w. apply connect_sizes_step. Qed.

Lemma init_weight_sizes_step (a : addr) (w : world) :
  sizes_step (heap w) (heap (snd (init_weight a w))).
Proof.
  destruct (heap w !! a) as [l |] eqn:Hl.
  - rewrite (init_weight_run a l w Hl). cbn [snd heap].
    eapply sizes_step_insert; [exact Hl |].
    unfold init_weight_layer. cbn [fst snd].
    repeat split. intros []; cbn [get_member set_member W_ b_ Whessian_ bhessian_
      output_ prev_delta_ prev_delta2_]; try reflexivity.
    + apply uniform_rand_fill_length.
    + apply uniform_rand_fill_length.
    + now rewrite std_fill_replicate, length_replicate.
    + now rewrite std_fill_replicate, length_replicate.
  - unfold init_weight, bind. rewrite (deref_None a w Hl). apply sizes_step_refl.
Qed.

Lemma init_weight_keeps_sizes (a : addr) : keeps_sizes (init_weight a).
Proof. apply keeps_sizes_step. intros w. apply init_weight_sizes_step. Qed.

Lemma divide_hessian_sizes_step (a : addr) (n : Z) (w : world) :
  sizes_step (heap w) (heap (snd (divide_hessian a n w))).
Proof.
  destruct (heap w !! a) as [l |] eqn:Hl.
  - rewrite (divide_hessian_run a l w n Hl). cbn [snd heap set_heap].
    eapply sizes_step_insert; [exact Hl |].
    unfold divide_hessian_layer.
    repeat split. intros []; cbn [get_member set_member W_ b_ Whessian_ bhessian_
      output_ prev_delta_ prev_delta2_]; try reflexivity;
      now rewrite divide_elements_map, length_map.
  - unfold divide_hessian, bind, load, bind. rewrite (deref_None a w Hl).
    apply sizes_step_refl.
Qed.

Lemma divide_hessian_keeps_sizes (a : addr) (n : Z) : keeps_sizes (divide_hessian a n).
Proof. apply keeps_sizes_step. intros w. apply divide_hessian_sizes_step. Qed.

(** C8, as the code has it by design. [param_size()] is the length of [W_]
    plus the length of [b_] whenever that sum is an [int]. A constructor
    that returns leaves a layer of the dimensions asked for, with an
    [output_] of [out_size_] elements, a [prev_delta_] and a [prev_delta2_]
    of [in_size_] elements, and weights and biases of the lengths asked for.
    It returns exactly when no dimension is negative and the free store
    supplies every vector that is not empty; otherwise it throws, leaving no
    object: [std::length_error] only when a dimension is negative, and
    [std::bad_alloc] only when the free store refuses a vector. [connect],
    [init_weight], the [reset] of [layer_base] and [divide_hessian] keep the
    lengths of all vectors and both dimensions of every layer, and with them
    these equalities and the value of [param_size()]. Nothing is said of the
    propagation functions: [input_layer::forward_propagation] makes
    [output_] a copy of its argument, of whatever length. *)
Theorem sizes_established_and_kept :
  (∀ l : layer_base,
     Z.of_nat (length (W_ l)) + Z.of_nat (length (b_ l)) <= INT_MAX ->
     param_size l = Z.of_nat (length (W_ l)) + Z.of_nat (length (b_ l))) ∧
  (∀ (cls : dyn_class) (this : addr) (i o wd bd : Z) (w w' : world),
     heap w !! this = None ->
     layer_base_ctor cls this i o wd bd w = (Val tt, w') ->
     ∃ l : layer_base,
       w' = set_heap (<[this := l]> (heap w)) w ∧
       in_size l = i ∧ out_size l = o ∧
       buffers_sized l ∧
       Z.of_nat (length (W_ l)) = wd ∧ Z.of_nat (length (b_ l)) = bd ∧
       (wd + bd <= INT_MAX -> param_size l = wd + bd)) ∧
  (∀ (cls : dyn_class) (this : addr) (i o wd bd : Z) (w : world),
     heap w !! this = None ->
     supplied i -> supplied o -> supplied wd -> supplied bd ->
     ∃ w' : world, layer_base_ctor cls this i o wd bd w = (Val tt, w')) ∧
  (∀ (cls : dyn_class) (this : addr) (i o wd bd : Z) (w : world),
     heap w !! this = None ->
     ¬ (supplied i ∧ supplied o ∧ supplied wd ∧ supplied bd) ->
     ∃ e : exn,
       layer_base_ctor cls this i o wd bd w = (Throw e, w) ∧
       ((e = length_error ∧ (i < 0 ∨ o < 0 ∨ wd < 0 ∨ bd < 0)) ∨
        (e = bad_alloc ∧
         ∃ n : Z, (n = i ∨ n = o ∨ n = wd ∨ n = bd) ∧ 0 < n ∧ allocates n = false))) ∧
  (∀ (a : addr) (p : ptr), keeps_sizes (connect a p)) ∧
  (∀ a : addr, keeps_sizes (init_weight a)) ∧
  (∀ a : addr, keeps_sizes (layer_base_reset a)) ∧
  (∀ (a : addr) (n : Z), keeps_sizes (divide_hessian a n)).
Proof.
  assert (Hps : ∀ l : layer_base,
            Z.of_nat (length (W_ l)) + Z.of_nat (length (b_ l)) <= INT_MAX ->
            param_size l = Z.of_nat (length (W_ l)) + Z.of_nat (length (b_ l))).
  { intros l Hle. unfold param_size, to_int, INT_MAX in *.
    rewrite Z.mod_small by lia. lia. }
  split; [exact Hps |].
  split; [| split; [| split; [| split; [| split; [| split]]]]].
  - intros cls this i o wd bd w w' Hfresh Hctor.
    rewrite (layer_base_ctor_run cls this i o wd bd w Hfresh) in Hctor.
    destruct (set_size_refusal i o wd bd) as [e |] eqn:Hr; [discriminate Hctor |].
    injection Hctor as <-.
    apply set_size_refusal_None in Hr.
    destruct Hr as ([Hi _] & [Ho _] & [Hwd _] & [Hbd _]).
    exists (new_layer cls i o wd bd).
    assert (HW : Z.of_nat (length (W_ (new_layer cls i o wd bd))) = wd).
    { unfold new_layer. cbn [W_]. now rewrite length_replicate, Z2Nat.id. }
    assert (Hb : Z.of_nat (length (b_ (new_layer cls i o wd bd))) = bd).
    { unfold new_layer. cbn [b_]. now rewrite length_replicate, Z2Nat.id. }
    split; [reflexivity |]. split; [reflexivity |]. split; [reflexivity |].
    split; [| split; [exact HW | split; [exact Hb |]]].
    + unfold buffers_sized, new_layer.
      cbn [output_ prev_delta_ prev_delta2_ in_size_ out_size_].
      rewrite !length_replicate, !Z2Nat.id by assumption.
      split; [reflexivity | split; reflexivity].
    + intros Hle. rewrite Hps; rewrite HW, Hb; [reflexivity | exact Hle].
  - intros cls this i o wd bd w Hfresh Hi Ho Hwd Hbd.
    rewrite (layer_base_ctor_run cls this i o wd bd w Hfresh).
    rewrite (proj2 (set_size_refusal_None i o wd bd)) by auto.
    eexists. reflexivity.
  - intros cls this i o wd bd w Hfresh Hnot.
    rewrite (layer_base_ctor_run cls this i o wd bd w Hfresh).
    destruct (set_size_refusal i o wd bd) as [e |] eqn:Hr.
    + exists e. split; [reflexivity |]. apply set_size_refusal_Some, Hr.
    + apply set_size_refusal_None in Hr. contradiction.
  - apply connect_keeps_sizes.
  - apply init_weight_keeps_sizes.
  - intros a. unfold layer_base_reset. apply init_weight_keeps_sizes.
  - apply divide_hessian_keeps_sizes.
Qed.

(** ** The container *)

Lemma modify_no_throw (p : ptr) (f : layer_base -> layer_base)
    (w w' : world) (e : exn) :
  modify p f w ≠ (Throw e, w').
Proof.
  unfold modify, bind, deref, undefined.
  destruct p as [a |]; [destruct (heap w !! a) |]; discriminate.
Qed.

Lemma bind_no_throw {A B : Type} (c : M world A) (k : A -> M world B) :
  (∀ w w' e, c w ≠ (Throw e, w')) ->
  (∀ x w w' e, k x w ≠ (Throw e, w')) ->
  ∀ w w' e, bind c k w ≠ (Throw e, w').
Proof.
  intros Hc Hk w w' e. unfold bind.
  destruct (c w) as [[x | e0 | |] w1] eqn:Hcw; try discriminate.
  - apply Hk.
  - exfalso. exact (Hc w w1 e0 Hcw).
Qed.

Lemma connect_throw_inv (a : addr) (p : ptr) (w w' : world) (e : exn) :
  connect a p w = (Throw e, w') ->
  w' = w ∧ e = nn_error "dimension mismatch".
Proof.
  assert (Hlinks : ∀ w1 : world,
    (modify (Some a) (set_next_ p) ;;; modify p (set_prev_ (Some a))) w1
      ≠ (Throw e, w')).
  { intros w1. apply bind_no_throw.
    - intros; apply modify_no_throw.
    - intros; apply modify_no_throw. }
  unfold connect. unfold bind at 1 2. unfold deref at 1.
  destruct (heap w !! a) as [la |]; [| discriminate].
  destruct (out_size la =? 0).
  - unfold ret. intros Hc. exfalso. exact (Hlinks w Hc).
  - unfold bind, deref.
    destruct p as [b |]; [| discriminate].
    destruct (heap w !! b) as [lb |]; [| discriminate].
    unfold ret. destruct (negb (in_size lb =? out_size la)).
    + unfold throw. intros Hc. injection Hc as <- <-. split; reflexivity.
    + intros Hc. exfalso. exact (Hlinks w Hc).
Qed.

(** C10. On a container that is not empty, when [add(L)] throws, what it
    throws is the dimension mismatch of [connect], which [add] lets through,
    and the container and the world are as before the call: [head_] and
    [tail_] are unchanged and [L] has not been linked. It does throw when
    the tail and [L] mismatch. *)
Theorem add_failure_keeps_chain (c : layers) (w : world) (L : ptr) :
  head_ c ≠ None ->
  (∀ (e : exn) (s' : layers * world),
     layers_add L (c, w) = (Throw e, s') ->
     s' = (c, w) ∧ e = nn_error "dimension mismatch") ∧
  (∀ (t b : addr) (lt lb : layer_base),
     tail_ c = Some t -> L = Some b ->
     heap w !! t = Some lt -> heap w !! b = Some lb -> mismatch lt lb ->
     layers_add L (c, w) = (Throw (nn_error "dimension mismatch"), (c, w))).
Proof.
  intros Hhead. destruct (head_ c) as [h |] eqn:Hh; [| contradiction].
  split.
  - intros e s'. unfold layers_add, bind, self, assign, ret, lift.
    cbn [fst snd]. rewrite Hh. cbn [fst snd].
    destruct (tail_ c) as [t |]; cbn [fst snd]; [| intros Hr; discriminate Hr].
    destruct (connect t L w) as [r w1] eqn:Hc.
    destruct r as [[] | e1 | |]; intros Hr; try discriminate Hr.
    injection Hr as <- <-.
    destruct (connect_throw_inv t L w w1 e1 Hc) as [-> ->].
    split; reflexivity.
  - intros t b lt lb Ht -> Hlt Hlb Hm.
    unfold layers_add, bind, self, assign, ret, lift.
    cbn [fst snd]. rewrite Hh. cbn [fst snd]. rewrite Ht. cbn [fst snd].
    now rewrite (connect_throws t b lt lb w Hlt Hlb Hm).
Qed.

(** ** Walking the chain *)



Lemma same_links_insert (h : gmap addr layer_base) (a : addr) (l l' : layer_base) :
  h !! a = Some l -> next_ l' = next_ l -> same_links h (<[a := l']> h).
Proof.
  intros Hl Hn x. destruct (decide (a = x)) as [-> | Hne].
  - rewrite lookup_insert_eq, Hl. cbn. now rewrite Hn.
  - now rewrite lookup_insert_ne by exact Hne.
Qed.

Lemma same_links_lookup (h h' : gmap addr layer_base) (a : addr) (l : layer_base) :
  same_links h h' -> h !! a = Some l ->
  ∃ l' : layer_base, h' !! a = Some l' ∧ next_ l' = next_ l.
Proof.
  intros Hs Hl. specialize (Hs a). rewrite Hl in Hs. cbn in Hs.
  destruct (h' !! a) as [l' |]; cbn in Hs; [| discriminate].
  exists l'. split; [reflexivity | congruence].
Qed.

Lemma chain_same_links (h h' : gmap addr layer_base) (p : ptr) (path : list addr) :
  same_links h h' -> chain h p path -> chain h' p path.
Proof.
  intros Hs. revert p. induction path as [| a rest IH]; intros p; cbn; [tauto |].
  intros (Hp & l & Hl & Hrest).
  destruct (same_links_lookup h h' a l Hs Hl) as (l' & Hl' & Hn).
  split; [exact Hp |]. exists l'. split; [exact Hl' |].
  rewrite Hn. apply IH, Hrest.
Qed.

(** The path from a pointer is unique. *)
Lemma chain_functional (h : gmap addr layer_base) (p : ptr) (l1 l2 : list addr) :
  chain h p l1 -> chain h p l2 -> l1 = l2.
Proof.
  revert p l2. induction l1 as [| a r1 IH]; intros p [| a2 r2]; cbn.
  - reflexivity.
  - intros -> (Hp & _). discriminate Hp.
  - intros (Hp & _) ->. discriminate Hp.
  - intros (Hp & l & Hl & H1) (Hp2 & l' & Hl' & H2).
    assert (a2 = a) by congruence. subst a2.
    assert (l' = l) by congruence. subst l'.
    f_equal. exact (IH _ _ H1 H2).
Qed.

Lemma chain_suffix (h : gmap addr layer_base) (p : ptr) (l1 l2 : list addr) (a : addr) :
  chain h p (l1 ++ a :: l2) -> chain h (Some a) (a :: l2).
Proof.
  revert p. induction l1 as [| x r IH]; intros p; cbn.
  - intros (_ & l & Hl & Hrest). split; [reflexivity |]. now exists l.
  - intros (_ & l & _ & Hrest). exact (IH _ Hrest).
Qed.

(** A path that ends at the null pointer visits no layer twice. *)
Lemma chain_NoDup (h : gmap addr layer_base) (p : ptr) (path : list addr) :
  chain h p path -> NoDup path.
Proof.
  revert p. induction path as [| a rest IH]; intros p Hc; [constructor |].
  apply NoDup_cons. split.
  - intros Hin. apply list_elem_of_split in Hin as (l1 & l2 & ->).
    destruct Hc as (Hp & l & Hl & Hrest).
    pose proof (chain_suffix _ _ _ _ _ Hrest) as Hsuf.
    assert (Hfull : chain h (Some a) (a :: l1 ++ a :: l2)).
    { split; [reflexivity |]. now exists l. }
    pose proof (chain_functional _ _ _ _ Hsuf Hfull) as Heq.
    apply (f_equal length) in Heq. cbn in Heq.
    rewrite length_app in Heq. cbn in Heq. lia.
  - destruct Hc as (_ & l & _ & Hrest). exact (IH _ Hrest).
Qed.

(** Linking a layer that is not on the path behind its last layer extends
    the path by that layer. *)
Lemma chain_extend (h : gmap addr layer_base) (p : ptr) (pre : list addr)
    (t b : addr) (lt lb' : layer_base) :
  chain h p (pre ++ [t]) -> h !! t = Some lt -> b ∉ pre ++ [t] ->
  next_ lb' = None ->
  chain (<[b := lb']> (<[t := set_next_ (Some b) lt]> h)) p (pre ++ [t; b]).
Proof.
  intros Hc Ht Hb Hn.
  pose proof (chain_NoDup _ _ _ Hc) as Hnd.
  revert p Hc Hb Hnd. induction pre as [| x rest IH]; intros p Hc Hb Hnd.
  - cbn in *. destruct Hc as (-> & l & Hl & Hend).
    assert (Hbt : b ≠ t) by (intros ->; apply Hb; left).
    split; [reflexivity |]. exists (set_next_ (Some b) lt). split.
    + rewrite lookup_insert_ne by exact Hbt. apply lookup_insert_eq.
    + cbn [next_ set_next_]. split; [reflexivity |].
      exists lb'. split; [apply lookup_insert_eq | exact Hn].
  - cbn [app chain] in *. destruct Hc as (-> & l & Hl & Hrest).
    apply NoDup_cons in Hnd as [Hx Hnd].
    assert (Hbx : b ≠ x) by (intros ->; apply Hb; left).
    assert (Htx : t ≠ x).
    { intros ->. apply Hx. apply elem_of_app. right. left. }
    split; [reflexivity |]. exists l. split.
    + rewrite !lookup_insert_ne by assumption. exact Hl.
    + apply IH; [exact Hrest | | exact Hnd].
      intros Hin. apply Hb. now right.
Qed.

(** [add] of a layer that is not yet in the chain, has no successor and
    matches the tail returns, makes it the tail and extends the chain by
    it. *)
Lemma layers_add_extends_chain (c : layers) (w : world) (pre : list addr)
    (t b : addr) (lt lb : layer_base) :
  chain (heap w) (head_ c) (pre ++ [t]) -> tail_ c = Some t ->
  heap w !! t = Some lt -> heap w !! b = Some lb ->
  b ∉ pre ++ [t] -> next_ lb = None -> ¬ mismatch lt lb ->
  ∃ w' : world,
    layers_add (Some b) (c, w) = (Val tt, (set_tail_ (Some b) c, w')) ∧
    chain (heap w') (head_ c) (pre ++ [t; b]).
Proof.
  intros Hc Htail Ht Hb Hfresh Hn Hm.
  assert (Hbt : t ≠ b).
  { intros ->. apply Hfresh. apply elem_of_app. right. left. }
  assert (Hhead : ∃ h, head_ c = Some h).
  { destruct pre; cbn in Hc; destruct Hc as (Hp & _); eauto. }
  destruct Hhead as (h & Hh).
  eexists. split.
  - unfold layers_add, bind, self, assign, ret, lift.
    cbn [fst snd]. rewrite Hh. cbn [fst snd]. rewrite Htail. cbn [fst snd].
    rewrite (connect_returns t b lt lb w Ht Hb Hm). reflexivity.
  - cbn [heap set_heap]. unfold after_next.
    rewrite decide_False by exact Hbt.
    apply chain_extend; [exact Hc | exact Ht | exact Hfresh | exact Hn].
Qed.

(** The constructor of the container leaves the sentinel as head and tail,
    and a chain of this one layer. *)
Lemma layers_ctor_run (p : addr) (w : world) :
  heap w !! p = None ->
  layers_ctor p w =
    (Val tt,
     (mk_layers p (Some p) (Some p),
      set_heap (<[p := new_layer class_input_layer 0 0 0 0]> (heap w)) w)) ∧
  chain (<[p := new_layer class_input_layer 0 0 0 0]> (heap w)) (Some p) [p].
Proof.
  intros Hfresh. split.
  - unfold layers_ctor, input_layer_ctor.
    rewrite (layer_base_ctor_run class_input_layer p 0 0 0 0 w Hfresh).
    reflexivity.
  - split; [reflexivity |]. eexists. split; [apply lookup_insert_eq | reflexivity].
Qed.

Lemma init_weight_layer_next (l : layer_base) (g : rng_state) :
  next_ (fst (init_weight_layer l g)) = next_ l.
Proof. reflexivity. Qed.




(** * Further properties of the header *)

(** ** What [connect] changes when it returns *)

Lemma links_val_inv (a : addr) (p : ptr) (w w' : world) :
  (modify (Some a) (set_next_ p) ;;; modify p (set_prev_ (Some a))) w = (Val tt, w') ->
  ∃ (b : addr) (la lb1 : layer_base),
    p = Some b ∧ heap w !! a = Some la ∧
    <[a := set_next_ (Some b) la]> (heap w) !! b = Some lb1 ∧
    w' = set_heap (<[b := set_prev_ (Some a) lb1]>
                     (<[a := set_next_ (Some b) la]> (heap w))) w.
Proof.
  unfold modify, bind, deref, undefined.
  destruct (heap w !! a) as [la |] eqn:Ha; [| discriminate].
  cbn [heap set_heap].
  destruct p as [b |]; [| discriminate].
  destruct (<[a := set_next_ (Some b) la]> (heap w) !! b) as [lb1 |] eqn:Hb;
    [| discriminate].
  intros Hc. injection Hc as <-. exists b, la, lb1.
  repeat split; try reflexivity. exact Hb.
Qed.

Lemma connect_val_inv (a : addr) (p : ptr) (w w' : world) :
  connect a p w = (Val tt, w') ->
  ∃ (b : addr) (la lb1 : layer_base),
    p = Some b ∧ heap w !! a = Some la ∧
    <[a := set_next_ (Some b) la]> (heap w) !! b = Some lb1 ∧
    w' = set_heap (<[b := set_prev_ (Some a) lb1]>
                     (<[a := set_next_ (Some b) la]> (heap w))) w.
Proof.
  pose proof (links_val_inv a p w w') as Hlinks.
  unfold connect. unfold bind at 1 2. unfold deref at 1.
  destruct (heap w !! a) as [la |]; [| discriminate].
  destruct (out_size la =? 0).
  - unfold ret. exact Hlinks.
  - unfold bind at 1. unfold deref at 1.
    destruct p as [b |]; [| discriminate].
    destruct (heap w !! b) as [lb |]; [| discriminate].
    unfold ret. destruct (negb (in_size lb =? out_size la)); [discriminate |].
    exact Hlinks.
Qed.

Lemma persists_refl (h : gmap addr layer_base) : persists h h.
Proof. intros a l Hl. exists l. repeat split; try reflexivity. exact Hl. Qed.

Lemma persists_trans (h1 h2 h3 : gmap addr layer_base) :
  persists h1 h2 -> persists h2 h3 -> persists h1 h3.
Proof.
  intros H12 H23 a l1 Hl1.
  destruct (H12 a l1 Hl1) as (l2 & Hl2 & Hv & Hi & Ho).
  destruct (H23 a l2 Hl2) as (l3 & Hl3 & Hv' & Hi' & Ho').
  exists l3. repeat split; [exact Hl3 | congruence ..].
Qed.

Lemma persists_insert (h : gmap addr layer_base) (a : addr) (l l2 : layer_base) :
  h !! a = Some l -> vptr l2 = vptr l ->
  in_size_ l2 = in_size_ l -> out_size_ l2 = out_size_ l ->
  persists h (<[a := l2]> h).
Proof.
  intros Hl Hv Hi Ho x lx Hx. destruct (decide (a = x)) as [-> | Hne].
  - exists l2. rewrite lookup_insert_eq. assert (lx = l) by congruence. subst lx.
    repeat split; assumption.
  - exists lx. rewrite lookup_insert_ne by exact Hne.
    repeat split; try reflexivity. exact Hx.
Qed.

Lemma persists_insert_fresh (h : gmap addr layer_base) (a : addr) (l : layer_base) :
  h !! a = None -> persists h (<[a := l]> h).
Proof.
  intros Hfresh x lx Hx. exists lx.
  rewrite lookup_insert_ne by congruence.
  repeat split; try reflexivity. exact Hx.
Qed.

Lemma connect_persists (a : addr) (p : ptr) (w w' : world) :
  connect a p w = (Val tt, w') -> persists (heap w) (heap w').
Proof.
  intros Hc.
  destruct (connect_val_inv a p w w' Hc) as (b & la & lb1 & -> & Ha & Hb & ->).
  rewrite heap_set_heap. eapply persists_trans.
  - apply (persists_insert _ a la (set_next_ (Some b) la) Ha); reflexivity.
  - apply (persists_insert _ b lb1 (set_prev_ (Some a) lb1) Hb); reflexivity.
Qed.

Lemma layer_base_ctor_persists (cls : dyn_class) (this : addr) (i o wd bd : Z)
    (w w' : world) (r : res unit) :
  layer_base_ctor cls this i o wd bd w = (r, w') -> persists (heap w) (heap w').
Proof.
  destruct (heap w !! this) as [l |] eqn:Hthis.
  - unfold layer_base_ctor. rewrite Hthis. intros Hc. injection Hc as _ <-.
    apply persists_refl.
  - rewrite (layer_base_ctor_run cls this i o wd bd w Hthis).
    destruct (set_size_refusal i o wd bd);
      intros Hc; injection Hc as _ <-.
    + apply persists_refl.
    + rewrite heap_set_heap. apply persists_insert_fresh, Hthis.
Qed.

Lemma container_ok_persists (c : layers) (w w' : world) :
  container_ok (c, w) -> persists (heap w) (heap w') -> container_ok (c, w').
Proof.
  intros (He & Hh & (l & Hl & Hv & Ho) & (t & lt & Ht & Hlt)) Hp.
  cbn [fst snd] in *.
  destruct (Hp _ _ Hl) as (l' & Hl' & Hv' & _ & Ho').
  destruct (Hp _ _ Hlt) as (lt' & Hlt' & _).
  split; [exact He |]. split; [exact Hh |]. split.
  - exists l'. cbn [fst snd]. split; [exact Hl' |].
    split; [congruence |]. unfold out_size in *. congruence.
  - exists t, lt'. cbn [fst snd]. split; [exact Ht | exact Hlt'].
Qed.

(** ** The container from its construction on *)

Lemma layers_add_first (c : layers) (w : world) (t b : addr) (lt lb : layer_base) :
  head_ c = Some t -> tail_ c = Some t ->
  heap w !! t = Some lt -> out_size lt = 0 -> heap w !! b = Some lb ->
  ∃ w2 : world,
    layers_add (Some b) (c, w) = (Val tt, (set_tail_ (Some b) c, w2)) ∧
    heap w2 = <[b := set_prev_ (Some t) (after_next t b lt lb)]>
                (<[t := set_next_ (Some b) lt]> (heap w)).
Proof.
  intros Hh Ht Hlt Hout Hlb.
  assert (Hm : ¬ mismatch lt lb) by (intros [Hne _]; contradiction).
  eexists. split.
  - unfold layers_add, bind, self, assign, ret, lift.
    cbn [fst snd]. rewrite Hh. cbn [fst snd]. rewrite Ht. cbn [fst snd].
    rewrite (connect_returns t b lt lb w Hlt Hlb Hm). reflexivity.
  - reflexivity.
Qed.

(** X1. The constructor of [layers], given fresh storage for its sentinel,
    returns; the container is then not empty, its head and its tail are
    the sentinel, which has no link and no parameter, and nothing else in
    the world has changed. The first [add] on it returns whatever the
    sizes of the layer added are, since the output size of the sentinel
    is 0. *)
Theorem layers_ctor_establishes (p : addr) (w : world) :
  heap w !! p = None ->
  ∃ (c : layers) (w' : world),
    layers_ctor p w = (Val tt, (c, w')) ∧
    layers_empty c = false ∧ layers_head c = Some p ∧ layers_tail c = Some p ∧
    first_ c = p ∧
    heap w' = <[p := new_layer class_input_layer 0 0 0 0]> (heap w) ∧
    gen w' = gen w ∧ calls w' = calls w ∧
    chain (heap w') (layers_head c) [p] ∧
    ∀ (b : addr) (lb : layer_base),
      heap w' !! b = Some lb ->
      ∃ w2 : world,
        layers_add (Some b) (c, w') = (Val tt, (set_tail_ (Some b) c, w2)).
Proof.
  intros Hfresh. destruct (layers_ctor_run p w Hfresh) as [Hrun Hchain].
  eexists _, _. split; [exact Hrun |].
  do 7 (split; [reflexivity |]). split; [exact Hchain |].
  intros b lb Hlb.
  destruct (layers_add_first (mk_layers p (Some p) (Some p))
              (set_heap (<[p := new_layer class_input_layer 0 0 0 0]> (heap w)) w)
              p b (new_layer class_input_layer 0 0 0 0) lb)
    as (w2 & Hadd & _); try reflexivity.
  - rewrite heap_set_heap. apply lookup_insert_eq.
  - exact Hlb.
  - exists w2. exact Hadd.
Qed.

Lemma layers_add_val_inv (c : layers) (w : world) (L : ptr) (s' : layers * world) :
  container_ok (c, w) -> layers_add L (c, w) = (Val tt, s') ->
  ∃ (t : addr) (w' : world),
    tail_ c = Some t ∧ connect t L w = (Val tt, w') ∧ s' = (set_tail_ L c, w').
Proof.
  intros (_ & Hh & _ & (t & lt & Ht & _)). cbn [fst snd] in *.
  unfold layers_head in Hh. unfold layers_tail in Ht.
  unfold layers_add, bind, self, assign, ret, lift.
  cbn [fst snd]. rewrite Hh. cbn [fst snd]. rewrite Ht. cbn [fst snd].
  destruct (connect t L w) as [r w'] eqn:Hc.
  destruct r as [[] | e | |]; intros Hr; try discriminate Hr.
  injection Hr as <-. exists t, w'.
  split; [reflexivity |]. split; [exact Hc | reflexivity].
Qed.

Lemma layers_add_throw_inv (c : layers) (w : world) (L : ptr) (e : exn)
    (s' : layers * world) :
  container_ok (c, w) -> layers_add L (c, w) = (Throw e, s') -> s' = (c, w).
Proof.
  intros (_ & Hh & _). cbn [fst snd] in *. unfold layers_head in Hh.
  unfold layers_add, bind, self, assign, ret, lift.
  cbn [fst snd]. rewrite Hh. cbn [fst snd].
  destruct (tail_ c) as [t |]; cbn [fst snd]; [| intros Hr; discriminate Hr].
  destruct (connect t L w) as [r w1] eqn:Hc.
  destruct r as [[] | e1 | |]; intros Hr; try discriminate Hr.
  injection Hr as _ <-.
  now destruct (connect_throw_inv t L w w1 e1 Hc) as [-> _].
Qed.

(** X3. In every state that a program reaches by constructing a container,
    constructing further layers and calling [add], whether the calls
    return or throw, the container is not empty, its head is its own
    sentinel, which is alive, is an [input_layer] and has output size 0, and
    its tail is a layer that is alive. *)
Theorem reachable_container_ok (s : layers * world) :
  reachable s -> container_ok s.
Proof.
  induction 1 as [p w s Hfresh Hctor
                 | c w w' cls this i o wd bd r Hreach IH Hnew
                 | s s' L Hreach IH Hadd
                 | s s' L e Hreach IH Hadd].
  - destruct (layers_ctor_run p w Hfresh) as [Hrun _].
    rewrite Hrun in Hctor. injection Hctor as <-.
    split; [reflexivity |]. split; [reflexivity |]. cbn [fst snd first_].
    split.
    + eexists. rewrite heap_set_heap, lookup_insert_eq.
      repeat split; reflexivity.
    + eexists _, _. rewrite heap_set_heap, lookup_insert_eq.
      split; reflexivity.
  - eapply container_ok_persists; [exact IH |].
    eapply layer_base_ctor_persists; exact Hnew.
  - destruct s as [c w].
    destruct (layers_add_val_inv c w L s' IH Hadd) as (t & w' & Ht & Hc & ->).
    pose proof (connect_persists t L w w' Hc) as Hp.
    destruct (container_ok_persists c w w' IH Hp)
      as (He & Hh & Hsent & _).
    destruct (connect_val_inv t L w w' Hc) as (b & la & lb1 & -> & _ & _ & ->).
    split; [exact He |]. split; [exact Hh |]. split; [exact Hsent |].
    exists b. eexists. cbn [fst snd]. split; [reflexivity |].
    rewrite heap_set_heap. apply lookup_insert_eq.
  - destruct s as [c w].
    now rewrite (layers_add_throw_inv c w L e s' IH Hadd).
Qed.

(** X2. [add] of a layer that is alive, is not yet in the chain, has no
    successor and matches the tail returns: the layer is the new tail, the
    head is as before, the chain is the old one followed by the layer, the
    old tail points forward to it and it points back to the old tail, and
    nothing else in the world has changed. *)
Theorem add_appends_layer (c : layers) (w : world) (pre : list addr)
    (t b : addr) (lt lb : layer_base) :
  chain (heap w) (head_ c) (pre ++ [t]) -> tail_ c = Some t ->
  heap w !! t = Some lt -> heap w !! b = Some lb ->
  b ∉ pre ++ [t] -> next_ lb = None -> ¬ mismatch lt lb ->
  ∃ (c' : layers) (w' : world),
    layers_add (Some b) (c, w) = (Val tt, (c', w')) ∧
    layers_tail c' = Some b ∧ layers_head c' = layers_head c ∧
    chain (heap w') (layers_head c') (pre ++ [t; b]) ∧
    heap w' !! t = Some (set_next_ (Some b) lt) ∧
    heap w' !! b = Some (set_prev_ (Some t) lb) ∧
    (∀ x : addr, x ≠ t -> x ≠ b -> heap w' !! x = heap w !! x) ∧
    gen w' = gen w ∧ calls w' = calls w.
Proof.
  intros Hc Htail Ht Hb Hfresh Hn Hm.
  assert (Hbt : t ≠ b).
  { intros ->. apply Hfresh. apply elem_of_app. right. left. }
  assert (Hhead : ∃ h, head_ c = Some h).
  { destruct pre; cbn in Hc; destruct Hc as (Hp & _); eauto. }
  destruct Hhead as (h & Hh).
  exists (set_tail_ (Some b) c),
         (set_heap (<[b := set_prev_ (Some t) lb]>
                      (<[t := set_next_ (Some b) lt]> (heap w))) w).
  split.
  - unfold layers_add, bind, self, assign, ret, lift.
    cbn [fst snd]. rewrite Hh. cbn [fst snd]. rewrite Htail. cbn [fst snd].
    rewrite (connect_returns t b lt lb w Ht Hb Hm).
    unfold after_next. rewrite decide_False by exact Hbt. reflexivity.
  - rewrite heap_set_heap.
    split; [reflexivity |]. split; [reflexivity |]. split.
    { apply chain_extend; [exact Hc | exact Ht | exact Hfresh | exact Hn]. }
    split.
    { rewrite lookup_insert_ne by congruence. apply lookup_insert_eq. }
    split; [apply lookup_insert_eq |]. split; [| split; reflexivity].
    intros x Hxt Hxb. now rewrite !lookup_insert_ne by congruence.
Qed.

(** ** [layers::divide_hessian] *)

Lemma same_links_sym (h h' : gmap addr layer_base) :
  same_links h h' -> same_links h' h.
Proof. intros Hs a. symmetry. apply Hs. Qed.

Lemma divide_hessian_dangling (a : addr) (n : Z) (w : world) :
  heap w !! a = None -> divide_hessian a n w = (Undefined, w).
Proof.
  intros Hl. unfold divide_hessian, bind, load, bind.
  now rewrite (deref_None a w Hl).
Qed.

Lemma divide_hessian_links (a : addr) (l : layer_base) (n : Z) (h : gmap addr layer_base) :
  h !! a = Some l -> same_links h (<[a := divide_hessian_layer n l]> h).
Proof. intros Hl. eapply same_links_insert; [exact Hl | reflexivity]. Qed.

(** On a chain the loop returns and divides the hessians of each layer of
    the chain once. *)
Lemma divide_hessian_loop_chain (fuel : nat) (p : ptr) (path : list addr)
    (n : Z) (w : world) :
  chain (heap w) p path -> (length path <= fuel)%nat ->
  ∃ w' : world,
    divide_hessian_loop fuel p n w = (Val tt, w') ∧
    gen w' = gen w ∧ calls w' = calls w ∧
    (∀ (a : addr) (l : layer_base),
       a ∈ path -> heap w !! a = Some l ->
       heap w' !! a = Some (divide_hessian_layer n l)) ∧
    (∀ a : addr, a ∉ path -> heap w' !! a = heap w !! a).
Proof.
  revert fuel p w. induction path as [| a rest IH]; intros fuel p w Hc Hfuel.
  - cbn in Hc. subst p. exists w.
    split; [destruct fuel; reflexivity |].
    split; [reflexivity |]. split; [reflexivity |]. split.
    + intros a l Ha. now apply elem_of_nil in Ha.
    + reflexivity.
  - pose proof (chain_NoDup _ _ _ Hc) as Hnd.
    apply NoDup_cons in Hnd as [Ha_rest _].
    destruct Hc as (-> & l & Hl & Hrest).
    destruct fuel as [| k]; [cbn in Hfuel; lia |].
    cbn [divide_hessian_loop]. unfold bind.
    rewrite (divide_hessian_run a l w n Hl).
    erewrite deref_Some by (rewrite heap_set_heap; apply lookup_insert_eq).
    change (next_ (divide_hessian_layer n l)) with (next_ l).
    destruct (IH k (next_ l) (set_heap (<[a := divide_hessian_layer n l]> (heap w)) w))
      as (w' & Hloop & Hgen & Hcalls & Hin & Hout).
    { rewrite heap_set_heap. eapply chain_same_links; [| exact Hrest].
      apply divide_hessian_links, Hl. }
    { cbn in Hfuel. lia. }
    rewrite heap_set_heap in Hin, Hout.
    exists w'. split; [exact Hloop |].
    split; [exact Hgen |]. split; [exact Hcalls |]. split.
    + intros x lx Hx Hlx. apply elem_of_cons in Hx as [-> | Hx].
      * rewrite (Hout a Ha_rest), lookup_insert_eq. congruence.
      * apply Hin; [exact Hx |].
        rewrite lookup_insert_ne; [exact Hlx |].
        intros ->. contradiction.
    + intros x Hx. apply not_elem_of_cons in Hx as [Hxa Hxrest].
      rewrite (Hout x Hxrest). now rewrite lookup_insert_ne by congruence.
Qed.

(** When the loop returns, the layers it walked form a chain. *)
Lemma divide_hessian_loop_val_chain (fuel : nat) (p : ptr) (n : Z) (w w' : world) :
  divide_hessian_loop fuel p n w = (Val tt, w') ->
  ∃ path : list addr, chain (heap w) p path ∧ (length path <= fuel)%nat.
Proof.
  revert p w. induction fuel as [| k IH]; intros p w.
  - destruct p as [a |]; cbn; [discriminate |].
    intros _. exists []. split; [reflexivity | cbn; lia].
  - destruct p as [a |]; cbn [divide_hessian_loop].
    + unfold bind. destruct (heap w !! a) as [l |] eqn:Hl.
      * rewrite (divide_hessian_run a l w n Hl).
        erewrite deref_Some by (rewrite heap_set_heap; apply lookup_insert_eq).
        change (next_ (divide_hessian_layer n l)) with (next_ l).
        intros Hloop. destruct (IH _ _ Hloop) as (path & Hc & Hlen).
        exists (a :: path). split; [| cbn; lia].
        split; [reflexivity |]. exists l. split; [exact Hl |].
        eapply chain_same_links; [| exact Hc].
        rewrite heap_set_heap. apply same_links_sym, divide_hessian_links, Hl.
      * rewrite (divide_hessian_dangling a n w Hl). discriminate.
    + intros _. exists []. split; [reflexivity | cbn; lia].
Qed.

(** X4. On a chain, [layers::divide_hessian(n)] returns once it has fuel for
    the length of the chain and leaves the container as it was; in each
    layer of the chain every element of both hessians has been divided by
    [n] exactly once and every other member is as before; the layers that
    are not in the chain, the generator and the calls counted are as
    before. *)
Theorem layers_divide_hessian_chain (c : layers) (w : world) (path : list addr)
    (fuel : nat) (n : Z) :
  chain (heap w) (head_ c) path -> (length path <= fuel)%nat ->
  ∃ w' : world,
    layers_divide_hessian fuel n (c, w) = (Val tt, (c, w')) ∧
    gen w' = gen w ∧ calls w' = calls w ∧
    (∀ (a : addr) (l : layer_base),
       a ∈ path -> heap w !! a = Some l ->
       ∃ l' : layer_base,
         heap w' !! a = Some l' ∧
         Whessian_ l' = map (fun x => (x / float_of_int n)%float) (Whessian_ l) ∧
         bhessian_ l' = map (fun x => (x / float_of_int n)%float) (bhessian_ l) ∧
         W_ l' = W_ l ∧ b_ l' = b_ l ∧ output_ l' = output_ l ∧
         prev_delta_ l' = prev_delta_ l ∧ prev_delta2_ l' = prev_delta2_ l ∧
         next_ l' = next_ l ∧ prev_ l' = prev_ l ∧
         in_size l' = in_size l ∧ out_size l' = out_size l) ∧
    (∀ a : addr, a ∉ path -> heap w' !! a = heap w !! a).
Proof.
  intros Hc Hfuel.
  destruct (divide_hessian_loop_chain fuel (head_ c) path n w Hc Hfuel)
    as (w' & Hloop & Hgen & Hcalls & Hin & Hout).
  exists w'. split.
  - unfold layers_divide_hessian, bind, self, lift. cbn [fst snd].
    now rewrite Hloop.
  - split; [exact Hgen |]. split; [exact Hcalls |]. split; [| exact Hout].
    intros a l Ha Hl. exists (divide_hessian_layer n l).
    split; [exact (Hin a l Ha Hl) |].
    unfold divide_hessian_layer. cbn [Whessian_ bhessian_ set_member].
    rewrite !divide_elements_map. repeat split; reflexivity.
Qed.

(** X5. [layers::divide_hessian] returns, for some amount of fuel, exactly
    when following [next_] from the head reaches the null pointer; on a
    chain that runs into a cycle it never returns. *)
Theorem layers_divide_hessian_returns_iff (c : layers) (w : world) (n : Z) :
  (∃ (fuel : nat) (s' : layers * world),
     layers_divide_hessian fuel n (c, w) = (Val tt, s')) ↔
  (∃ path : list addr, chain (heap w) (head_ c) path).
Proof.
  split.
  - intros (fuel & s' & Hrun).
    unfold layers_divide_hessian, bind, self, lift in Hrun. cbn [fst snd] in Hrun.
    destruct (divide_hessian_loop fuel (head_ c) n w) as [r w'] eqn:Hloop.
    destruct r as [[] | e | |]; try discriminate Hrun.
    destruct (divide_hessian_loop_val_chain _ _ _ _ _ Hloop) as (path & Hc & _).
    now exists path.
  - intros (path & Hc).
    destruct (divide_hessian_loop_chain (length path) (head_ c) path n w Hc (le_n _))
      as (w' & Hloop & _).
    exists (length path), (c, w').
    unfold layers_divide_hessian, bind, self, lift. cbn [fst snd].
    now rewrite Hloop.
Qed.

(** No chain starts at a layer that is its own successor. *)
Lemma no_chain_on_self_loop (h : gmap addr layer_base) (a : addr) (l : layer_base)
    (path : list addr) :
  h !! a = Some l -> next_ l = Some a -> ¬ chain h (Some a) path.
Proof.
  intros Hl Hn. induction path as [| x rest IH]; cbn.
  - discriminate.
  - intros (Hx & l' & Hl' & Hrest). injection Hx as <-.
    assert (l' = l) by congruence. subst l'. rewrite Hn in Hrest.
    exact (IH Hrest).
Qed.

(** ** What [init_weight] draws and what it leaves alone *)

Lemma uniform_rand_fill_advance (v : vec_t) (lo hi : float_t) (g : rng_state) :
  snd (uniform_rand_fill v lo hi g) = advance (length v) lo hi g.
Proof.
  revert g. induction v as [| x t IH]; intros g; cbn; [reflexivity |].
  specialize (IH (snd (uniform_rand1 lo hi g))).
  destruct (uniform_rand1 lo hi g) as [y g1]. cbn [snd] in *.
  destruct (uniform_rand_fill t lo hi g1) as [t' g2]. exact IH.
Qed.

Lemma advance_add (m n : nat) (lo hi : float_t) (g : rng_state) :
  advance (m + n) lo hi g = advance n lo hi (advance m lo hi g).
Proof. revert g. induction m as [| m IH]; intros g; cbn; [reflexivity | apply IH]. Qed.

(** X7. [init_weight] on a layer that is alive returns after exactly one
    draw for each weight and then one for each bias, all from the interval
    from [-weight_base] to [weight_base]; it keeps the lengths of the
    weights, the biases and both hessians, and leaves the propagation
    buffers, the sizes, the links and the class of the layer, every other
    layer and the calls counted as they were. *)
Theorem init_weight_frame (a : addr) (l : layer_base) (w : world) :
  heap w !! a = Some l ->
  ∃ l' : layer_base,
    init_weight a w =
      (Val tt,
       mk_world (<[a := l']> (heap w))
         (advance (length (W_ l) + length (b_ l))
            (- weight_base_of (fan_in_size l))%float
            (weight_base_of (fan_in_size l)) (gen w))
         (calls w)) ∧
    output_ l' = output_ l ∧ prev_delta_ l' = prev_delta_ l ∧
    prev_delta2_ l' = prev_delta2_ l ∧
    in_size l' = in_size l ∧ out_size l' = out_size l ∧
    next_ l' = next_ l ∧ prev_ l' = prev_ l ∧ vptr l' = vptr l ∧
    length (W_ l') = length (W_ l) ∧ length (b_ l') = length (b_ l) ∧
    length (Whessian_ l') = length (Whessian_ l) ∧
    length (bhessian_ l') = length (bhessian_ l).
Proof.
  intros Hl. exists (fst (init_weight_layer l (gen w))). split.
  - rewrite (init_weight_run a l w Hl). do 2 f_equal.
    unfold init_weight_layer. cbn [snd].
    now rewrite !uniform_rand_fill_advance, advance_add.
  - unfold init_weight_layer. cbn [fst].
    cbn [set_member output_ prev_delta_ prev_delta2_ in_size out_size in_size_
         out_size_ next_ prev_ vptr W_ b_ Whessian_ bhessian_].
    rewrite !uniform_rand_fill_length, !std_fill_replicate, !length_replicate.
    repeat split; reflexivity.
Qed.

Lemma init_weight_layer_no_parameters (l : layer_base) (g : rng_state) :
  no_parameters l -> init_weight_layer l g = (l, g).
Proof.
  intros (HW & Hb & HWh & Hbh). unfold init_weight_layer.
  destruct l. cbn in *. subst. reflexivity.
Qed.

(** X8. On a layer without parameters, as the sentinel is, [init_weight]
    returns without a draw and leaves the world as it was, and a virtual
    call of [reset], when the class inherits it, changes nothing but the
    count of calls. *)
Theorem init_weight_without_parameters (a : addr) (l : layer_base) (w : world) :
  heap w !! a = Some l -> no_parameters l ->
  init_weight a w = (Val tt, w) ∧
  (inherits_reset l ->
   reset (Some a) w =
     (Val tt, mk_world (heap w) (gen w) (calls w ++ [ev_reset a]))).
Proof.
  intros Hl Hnone.
  assert (Hinit : ∀ w0 : world, heap w0 !! a = Some l -> init_weight a w0 = (Val tt, w0)).
  { intros w0 Hl0. rewrite (init_weight_run a l w0 Hl0).
    rewrite (init_weight_layer_no_parameters l (gen w0) Hnone). cbn [fst snd].
    rewrite (insert_id _ _ _ Hl0). now destruct w0. }
  split; [exact (Hinit w Hl) |].
  intros Hinh. unfold reset. unfold bind at 1.
  rewrite (deref_Some a l w Hl). unfold bind, record_call.
  assert (Hdefault :
    layer_base_reset a (mk_world (heap w) (gen w) (calls w ++ [ev_reset a])) =
    (Val tt, mk_world (heap w) (gen w) (calls w ++ [ev_reset a]))).
  { unfold layer_base_reset. apply Hinit. exact Hl. }
  unfold inherits_reset in Hinh.
  destruct (vptr l) as [| c]; [exact Hdefault |].
  rewrite Hinh. exact Hdefault.
Qed.

(** ** The shape of the hessians *)

Lemma same_shape_hessians (l l' : layer_base) :
  same_shape l l' -> hessians_shaped l -> hessians_shaped l'.
Proof.
  intros (_ & _ & Hm) [HW Hb].
  pose proof (Hm m_W) as H1. pose proof (Hm m_b) as H2.
  pose proof (Hm m_Whessian) as H3. pose proof (Hm m_bhessian) as H4.
  cbn [get_member] in *. split; congruence.
Qed.

Lemma keeps_hessian_shapes_step (c : M world unit) :
  (∀ w : world, sizes_step (heap w) (heap (snd (c w)))) -> keeps_hessian_shapes c.
Proof.
  intros Hc w a l' Hl'. destruct (Hc w a l' Hl') as (l & Hl & Hs).
  exists l. split; [exact Hl | now apply same_shape_hessians].
Qed.

(** X13. The constructor leaves [Whessian_] of the length of [W_] and
    [bhessian_] of the length of [b_], all zero like the weights and the
    biases, and [connect], [init_weight], the [reset] of [layer_base] and
    [divide_hessian] keep the hessians of every layer in the shape of its
    parameters. *)
Theorem hessian_shapes_kept :
  (∀ (cls : dyn_class) (this : addr) (i o wd bd : Z) (w w' : world) (l : layer_base),
     heap w !! this = None ->
     layer_base_ctor cls this i o wd bd w = (Val tt, w') ->
     heap w' !! this = Some l ->
     hessians_shaped l ∧
     all_zero (W_ l) ∧ all_zero (b_ l) ∧
     all_zero (Whessian_ l) ∧ all_zero (bhessian_ l)) ∧
  (∀ (a : addr) (p : ptr), keeps_hessian_shapes (connect a p)) ∧
  (∀ a : addr, keeps_hessian_shapes (init_weight a)) ∧
  (∀ a : addr, keeps_hessian_shapes (layer_base_reset a)) ∧
  (∀ (a : addr) (n : Z), keeps_hessian_shapes (divide_hessian a n)).
Proof.
  split; [| split; [| split; [| split]]].
  - intros cls this i o wd bd w w' l Hfresh Hctor Hl.
    rewrite (layer_base_ctor_run cls this i o wd bd w Hfresh) in Hctor.
    destruct (set_size_refusal i o wd bd); [discriminate Hctor |].
    injection Hctor as <-. rewrite heap_set_heap, lookup_insert_eq in Hl.
    injection Hl as <-. unfold hessians_shaped, all_zero, new_layer.
    cbn [W_ b_ Whessian_ bhessian_].
    repeat split; try reflexivity; apply Forall_replicate; reflexivity.
  - intros a p. apply keeps_hessian_shapes_step. intros w. apply connect_sizes_step.
  - intros a. apply keeps_hessian_shapes_step. intros w. apply init_weight_sizes_step.
  - intros a. apply keeps_hessian_shapes_step. intros w.
    unfold layer_base_reset. apply init_weight_sizes_step.
  - intros a n. apply keeps_hessian_shapes_step. intros w.
    apply divide_hessian_sizes_step.
Qed.

(** ** [layers::reset] on layers that inherit [reset] *)

Lemma reset_inherits_run (a : addr) (l : layer_base) (w : world) :
  heap w !! a = Some l -> inherits_reset l ->
  reset (Some a) w =
    (Val tt,
     mk_world (<[a := fst (init_weight_layer l (gen w))]> (heap w))
              (snd (init_weight_layer l (gen w))) (calls w ++ [ev_reset a])).
Proof.
  intros Hl Hinh. unfold reset. unfold bind at 1.
  rewrite (deref_Some a l w Hl). unfold bind, record_call.
  assert (Hdefault :
    layer_base_reset a (mk_world (heap w) (gen w) (calls w ++ [ev_reset a])) =
    (Val tt,
     mk_world (<[a := fst (init_weight_layer l (gen w))]> (heap w))
              (snd (init_weight_layer l (gen w))) (calls w ++ [ev_reset a]))).
  { unfold layer_base_reset.
    now rewrite (init_weight_run a l (mk_world (heap w) (gen w) (calls w ++ [ev_reset a])) Hl). }
  unfold inherits_reset in Hinh.
  destruct (vptr l) as [| c]; [exact Hdefault |].
  rewrite Hinh. exact Hdefault.
Qed.

Lemma reset_loop_inherits (fuel : nat) (p : ptr) (path : list addr) (w : world) :
  chain (heap w) p path ->
  (∀ (a : addr) (l : layer_base),
     a ∈ path -> heap w !! a = Some l -> inherits_reset l) ->
  (length path <= fuel)%nat ->
  ∃ w' : world,
    reset_loop fuel p w = (Val tt, w') ∧
    (∀ (a : addr) (l : layer_base),
       a ∈ path -> heap w !! a = Some l ->
       ∃ g : rng_state, heap w' !! a = Some (fst (init_weight_layer l g))) ∧
    (∀ a : addr, a ∉ path -> heap w' !! a = heap w !! a).
Proof.
  revert fuel p w. induction path as [| a rest IH]; intros fuel p w Hc Hinh Hfuel.
  - cbn in Hc. subst p. exists w.
    split; [destruct fuel; reflexivity |]. split.
    + intros a l Ha. now apply elem_of_nil in Ha.
    + reflexivity.
  - pose proof (chain_NoDup _ _ _ Hc) as Hnd.
    apply NoDup_cons in Hnd as [Ha_rest _].
    destruct Hc as (-> & l & Hl & Hrest).
    destruct fuel as [| k]; [cbn in Hfuel; lia |].
    assert (Hinh_a : inherits_reset l).
    { apply (Hinh a l); [left | exact Hl]. }
    cbn [reset_loop]. unfold bind.
    rewrite (reset_inherits_run a l w Hl Hinh_a).
    erewrite deref_Some by (cbn [heap]; apply lookup_insert_eq).
    rewrite init_weight_layer_next.
    set (w1 := mk_world (<[a := fst (init_weight_layer l (gen w))]> (heap w))
                 (snd (init_weight_layer l (gen w))) (calls w ++ [ev_reset a])).
    destruct (IH k (next_ l) w1) as (w' & Hloop & Hin & Hout).
    { cbn [heap w1]. eapply chain_same_links; [| exact Hrest].
      eapply same_links_insert; [exact Hl | apply init_weight_layer_next]. }
    { intros x lx Hx Hlx. cbn [heap w1] in Hlx.
      rewrite lookup_insert_ne in Hlx by (intros ->; contradiction).
      apply (Hinh x lx); [now right | exact Hlx]. }
    { cbn in Hfuel. lia. }
    cbn [heap w1] in Hin, Hout.
    exists w'. split; [exact Hloop |]. split.
    + intros x lx Hx Hlx. apply elem_of_cons in Hx as [-> | Hx].
      * exists (gen w). rewrite (Hout a Ha_rest), lookup_insert_eq. congruence.
      * apply Hin; [exact Hx |].
        rewrite lookup_insert_ne; [exact Hlx |].
        intros ->. contradiction.
    + intros x Hx. apply not_elem_of_cons in Hx as [Hxa Hxrest].
      rewrite (Hout x Hxrest). now rewrite lookup_insert_ne by congruence.
Qed.

(** X6. On a chain whose layers all inherit the [reset] of [layer_base],
    [layers::reset()] returns once it has fuel for the length of the chain,
    and then, in each layer of the chain, both hessians are zero, the
    weights and the biases have the lengths they had and, when the random
    source draws from the interval it is given and the fan-in is positive,
    lie between [-w] and [w]; the propagation buffers, the links and the
    sizes are as before, and so is every layer that is not in the chain. *)
Theorem layers_reset_inherited (c : layers) (w : world) (path : list addr)
    (fuel : nat) :
  chain (heap w) (head_ c) path ->
  (∀ (a : addr) (l : layer_base),
     a ∈ path -> heap w !! a = Some l -> inherits_reset l) ->
  (length path <= fuel)%nat ->
  ∃ w' : world,
    layers_reset fuel (c, w) = (Val tt, (c, w')) ∧
    (∀ (a : addr) (l : layer_base),
       a ∈ path -> heap w !! a = Some l ->
       ∃ l' : layer_base,
         heap w' !! a = Some l' ∧
         all_zero (Whessian_ l') ∧ all_zero (bhessian_ l') ∧
         length (W_ l') = length (W_ l) ∧ length (b_ l') = length (b_ l) ∧
         (draws_in_range -> 0 < fan_in_size l ->
          within (- weight_base_of (fan_in_size l))%float
                 (weight_base_of (fan_in_size l)) (W_ l') ∧
          within (- weight_base_of (fan_in_size l))%float
                 (weight_base_of (fan_in_size l)) (b_ l')) ∧
         output_ l' = output_ l ∧ prev_delta_ l' = prev_delta_ l ∧
         prev_delta2_ l' = prev_delta2_ l ∧
         next_ l' = next_ l ∧ prev_ l' = prev_ l ∧
         in_size l' = in_size l ∧ out_size l' = out_size l) ∧
    (∀ a : addr, a ∉ path -> heap w' !! a = heap w !! a).
Proof.
  intros Hc Hinh Hfuel.
  destruct (reset_loop_inherits fuel (head_ c) path w Hc Hinh Hfuel)
    as (w' & Hloop & Hin & Hout).
  exists w'. split.
  - unfold layers_reset, bind, self, lift. cbn [fst snd]. now rewrite Hloop.
  - split; [| exact Hout].
    intros a l Ha Hl. destruct (Hin a l Ha Hl) as (g & Hl').
    exists (fst (init_weight_layer l g)). split; [exact Hl' |].
    unfold init_weight_layer. cbn [fst].
    cbn [set_member output_ prev_delta_ prev_delta2_ in_size out_size in_size_
         out_size_ next_ prev_ vptr W_ b_ Whessian_ bhessian_].
    split; [apply std_fill_zero |]. split; [apply std_fill_zero |].
    rewrite !uniform_rand_fill_length.
    split; [reflexivity |]. split; [reflexivity |]. split.
    + intros Hdraw Hfan.
      assert (Hle := weight_base_interval (fan_in_size l) (Z.lt_le_incl _ _ Hfan)).
      split; apply uniform_rand_fill_within; assumption.
    + repeat split; reflexivity.
Qed.

(** ** More on [connect] *)

(** X9. When [A.connect(B)] returns, nothing but [next_] of A and [prev_] of
    B has been assigned: the seven vectors, the sizes and the class of both
    layers, [prev_] of A and [next_] of B when A and B are two objects,
    every other layer, the generator and the calls counted are as
    before. *)
Theorem connect_changes_links_only (a b : addr) (la lb : layer_base) (w w' : world) :
  heap w !! a = Some la -> heap w !! b = Some lb ->
  connect a (Some b) w = (Val tt, w') ->
  gen w' = gen w ∧ calls w' = calls w ∧
  (∀ x : addr, x ≠ a -> x ≠ b -> heap w' !! x = heap w !! x) ∧
  ∃ la' lb' : layer_base,
    heap w' !! a = Some la' ∧ heap w' !! b = Some lb' ∧
    (∀ f : member, get_member f la' = get_member f la) ∧
    (∀ f : member, get_member f lb' = get_member f lb) ∧
    in_size la' = in_size la ∧ out_size la' = out_size la ∧ vptr la' = vptr la ∧
    in_size lb' = in_size lb ∧ out_size lb' = out_size lb ∧ vptr lb' = vptr lb ∧
    (a ≠ b -> prev_ la' = prev_ la ∧ next_ lb' = next_ lb).
Proof.
  intros Ha Hb Hc.
  destruct (mismatch_dec la lb) as [Hm | Hm].
  { rewrite (connect_throws a b la lb w Ha Hb Hm) in Hc. discriminate Hc. }
  rewrite (connect_returns a b la lb w Ha Hb Hm) in Hc.
  injection Hc as <-. rewrite heap_set_heap.
  split; [reflexivity |]. split; [reflexivity |]. split.
  { intros x Hxa Hxb. now rewrite !lookup_insert_ne by congruence. }
  unfold after_next. destruct (decide (a = b)) as [Heq | Hne].
  - subst b. assert (lb = la) by congruence. subst lb.
    eexists _, _. rewrite !lookup_insert_eq.
    split; [reflexivity |]. split; [reflexivity |].
    split; [intros []; reflexivity |]. split; [intros []; reflexivity |].
    repeat split; try reflexivity; contradiction.
  - eexists _, _. rewrite lookup_insert_eq, lookup_insert_ne by congruence.
    rewrite lookup_insert_eq.
    split; [reflexivity |]. split; [reflexivity |].
    split; [intros []; reflexivity |]. split; [intros []; reflexivity |].
    repeat split; reflexivity.
Qed.

(** X10. There is no disconnection: when A is connected to B and then to
    C, three different layers, both calls returning, A points forward to C
    and C back to A, and B still points back to A. *)
Theorem reconnect_leaves_stale_prev (a b c : addr) (la lb lc : layer_base) (w : world) :
  a ≠ b -> a ≠ c -> b ≠ c ->
  heap w !! a = Some la -> heap w !! b = Some lb -> heap w !! c = Some lc ->
  ¬ mismatch la lb -> ¬ mismatch la lc ->
  ∃ w2 : world,
    (connect a (Some b) ;;; connect a (Some c)) w = (Val tt, w2) ∧
    heap w2 !! a = Some (set_next_ (Some c) la) ∧
    heap w2 !! b = Some (set_prev_ (Some a) lb) ∧
    heap w2 !! c = Some (set_prev_ (Some a) lc).
Proof.
  intros Hab Hac Hbc Ha Hb Hc Hmb Hmc.
  unfold bind. rewrite (connect_returns a b la lb w Ha Hb Hmb).
  unfold after_next. rewrite decide_False by exact Hab.
  erewrite (connect_returns a c (set_next_ (Some b) la) lc).
  - eexists. split; [reflexivity |].
    unfold after_next. rewrite decide_False by exact Hac.
    rewrite !heap_set_heap. split; [| split].
    + rewrite lookup_insert_ne by congruence. now rewrite lookup_insert_eq.
    + rewrite !lookup_insert_ne by congruence. now rewrite lookup_insert_eq.
    + now rewrite lookup_insert_eq.
  - rewrite heap_set_heap, lookup_insert_ne by congruence. apply lookup_insert_eq.
  - rewrite heap_set_heap, !lookup_insert_ne by congruence. exact Hc.
  - exact Hmc.
Qed.

(** ** The sentinel with a successor *)

(** X11. A sentinel whose successor is a layer of a class defined elsewhere
    is transparent: with fuel for the two calls, [forward_propagation]
    copies its argument into [output_] of the sentinel and then is the
    [forward_propagation] of the successor on the same argument, result and
    world; the two back propagations of the sentinel return their argument
    and leave the world as it was, whatever the links are. *)
Theorem sentinel_forwards_to_successor (a n : addr) (l ln : layer_base)
    (c : ext_class) (w : world) (inp d : vref) (u : ptr) (v : vec_t) (fuel : nat) :
  heap w !! a = Some l -> vptr l = class_input_layer -> next_ l = Some n ->
  heap w !! n = Some ln -> vptr ln = class_ext c ->
  load inp w = (Val v, w) ->
  forward_propagation (S (S fuel)) (Some a) inp w =
    ext_forward_propagation c n inp
      (set_heap (<[a := set_member m_output v l]> (heap w)) w) ∧
  back_propagation (Some a) d u w = (Val d, w) ∧
  back_propagation_2nd (Some a) d w = (Val d, w).
Proof.
  intros Hl Hcls Hnext Hln Hcn Hin.
  assert (Hna : a ≠ n).
  { intros ->. rewrite Hl in Hln. injection Hln as ->. congruence. }
  split; [| split].
  - cbn [forward_propagation]. unfold bind at 1.
    rewrite (deref_Some a l w Hl), Hcls.
    unfold input_layer_forward_propagation. unfold bind at 1. rewrite Hin.
    unfold bind at 1. rewrite (store_Some a m_output v l w Hl).
    unfold bind at 1.
    erewrite deref_Some by (rewrite heap_set_heap; apply lookup_insert_eq).
    change (next_ (set_member m_output v l)) with (next_ l). rewrite Hnext.
    unfold bind.
    erewrite deref_Some
      by (rewrite heap_set_heap, lookup_insert_ne by exact Hna; exact Hln).
    now rewrite Hcn.
  - unfold back_propagation, bind. now rewrite (deref_Some a l w Hl), Hcls.
  - unfold back_propagation_2nd, bind. now rewrite (deref_Some a l w Hl), Hcls.
Qed.

(** Copying into [output_] of a layer keeps an argument readable. *)
Lemma load_after_store (inp : vref) (a : addr) (l : layer_base) (v v0 : vec_t)
    (w : world) :
  heap w !! a = Some l -> load inp w = (Val v0, w) ->
  ∃ v1 : vec_t,
    load inp (set_heap (<[a := set_member m_output v l]> (heap w)) w) =
      (Val v1, set_heap (<[a := set_member m_output v l]> (heap w)) w).
Proof.
  intros Hl. destruct inp as [x f | v2].
  - unfold load, bind, deref. rewrite heap_set_heap.
    destruct (decide (a = x)) as [-> | Hne].
    + intros _. rewrite lookup_insert_eq. eexists. reflexivity.
    + rewrite lookup_insert_ne by exact Hne.
      destruct (heap w !! x) as [lx |]; [| discriminate].
      intros _. eexists. reflexivity.
  - intros _. exists v2. reflexivity.
Qed.

(** X12. On a sentinel that is its own successor, as [connect] of the
    sentinel to itself leaves it, [forward_propagation] never returns:
    whatever the fuel, the recursion runs out of it. *)
Theorem sentinel_self_loop_diverges (a : addr) (l : layer_base) (w : world)
    (inp : vref) (v : vec_t) (fuel : nat) :
  heap w !! a = Some l -> vptr l = class_input_layer -> next_ l = Some a ->
  load inp w = (Val v, w) ->
  fst (forward_propagation fuel (Some a) inp w) = OutOfFuel.
Proof.
  revert l w v. induction fuel as [| k IH]; intros l w v Hl Hcls Hnext Hin.
  - reflexivity.
  - cbn [forward_propagation]. unfold bind at 1.
    rewrite (deref_Some a l w Hl), Hcls.
    unfold input_layer_forward_propagation. unfold bind at 1. rewrite Hin.
    unfold bind at 1. rewrite (store_Some a m_output v l w Hl).
    unfold bind at 1.
    erewrite deref_Some by (rewrite heap_set_heap; apply lookup_insert_eq).
    change (next_ (set_member m_output v l)) with (next_ l). rewrite Hnext.
    destruct (load_after_store inp a l v v w Hl Hin) as (v1 & Hin1).
    apply (IH (set_member m_output v l) _ v1).
    + rewrite heap_set_heap. apply lookup_insert_eq.
    + exact Hcls.
    + exact Hnext.
    + exact Hin1.
Qed.

(** ** Adding the tail a second time *)

Lemma chain_through (h h' : gmap addr layer_base) (p : ptr) (pre : list addr)
    (t : addr) (path : list addr) :
  chain h p (pre ++ [t]) -> (∀ x : addr, x ≠ t -> h' !! x = h !! x) ->
  chain h' p path -> ∃ rest : list addr, chain h' (Some t) rest.
Proof.
  intros Hc Hsame. pose proof (chain_NoDup _ _ _ Hc) as Hnd.
  revert p path Hc Hnd. induction pre as [| x r IH]; intros p path Hc Hnd Hc'.
  - cbn in Hc. destruct Hc as (-> & _). now exists path.
  - cbn [app chain] in Hc. destruct Hc as (-> & l & Hl & Hrest).
    apply NoDup_cons in Hnd as [Hx Hnd].
    assert (Hxt : x ≠ t).
    { intros ->. apply Hx. apply elem_of_app. right. left. }
    destruct path as [| y path']; cbn in Hc'; [discriminate Hc' |].
    destruct Hc' as (Hy & l' & Hl' & Hrest'). injection Hy as <-.
    rewrite (Hsame x Hxt), Hl in Hl'. injection Hl' as <-.
    exact (IH _ _ Hrest Hnd Hrest').
Qed.

(** X14. [add] of the layer that is the tail already, when its sizes allow
    [connect] to return, returns and makes the tail its own successor and
    predecessor; from then on [layers::divide_hessian] never returns,
    whatever the fuel. *)
Theorem add_tail_again_hangs (c : layers) (w : world) (pre : list addr)
    (t : addr) (lt : layer_base) :
  chain (heap w) (head_ c) (pre ++ [t]) -> tail_ c = Some t ->
  heap w !! t = Some lt -> ¬ mismatch lt lt ->
  ∃ (c' : layers) (w' : world),
    layers_add (Some t) (c, w) = (Val tt, (c', w')) ∧
    layers_head c' = layers_head c ∧ layers_tail c' = Some t ∧
    heap w' !! t = Some (set_prev_ (Some t) (set_next_ (Some t) lt)) ∧
    ∀ (fuel : nat) (n : Z) (s' : layers * world),
      layers_divide_hessian fuel n (c', w') ≠ (Val tt, s').
Proof.
  intros Hc Htail Ht Hm.
  assert (Hhead : ∃ h, head_ c = Some h).
  { destruct pre; cbn in Hc; destruct Hc as (Hp & _); eauto. }
  destruct Hhead as (h & Hh).
  exists (set_tail_ (Some t) c),
         (set_heap (<[t := set_prev_ (Some t) (set_next_ (Some t) lt)]>
                      (<[t := set_next_ (Some t) lt]> (heap w))) w).
  split.
  - unfold layers_add, bind, self, assign, ret, lift.
    cbn [fst snd]. rewrite Hh. cbn [fst snd]. rewrite Htail. cbn [fst snd].
    rewrite (connect_returns t t lt lt w Ht Ht Hm).
    unfold after_next. rewrite decide_True by reflexivity. reflexivity.
  - split; [reflexivity |]. split; [reflexivity |].
    rewrite heap_set_heap. split; [apply lookup_insert_eq |].
    intros fuel n s' Hrun.
    unfold layers_divide_hessian, bind, self, lift in Hrun.
    cbn [fst snd head_ set_tail_] in Hrun.
    destruct (divide_hessian_loop fuel (head_ c) n _) as [r w2] eqn:Hloop.
    destruct r as [[] | e | |]; try discriminate Hrun.
    destruct (divide_hessian_loop_val_chain _ _ _ _ _ Hloop) as (path & Hpath & _).
    rewrite heap_set_heap in Hpath.
    destruct (chain_through (heap w)
                (<[t := set_prev_ (Some t) (set_next_ (Some t) lt)]>
                   (<[t := set_next_ (Some t) lt]> (heap w)))
                (head_ c) pre t path Hc) as (rest & Hrest).
    + intros x Hx. now rewrite !lookup_insert_ne by congruence.
    + exact Hpath.
    + eapply no_chain_on_self_loop; [| | exact Hrest].
      * apply lookup_insert_eq.
      * reflexivity.
Qed.

(** ** Dividing zero hessians by a positive count *)

Lemma digits2_pos_size (m : positive) : digits2_pos m = Pos.size m.
Proof. induction m as [m IH | m IH |]; cbn; [now rewrite IH .. | reflexivity]. Qed.

Lemma digits2_pos_shift (m k : positive) :
  digits2_pos (Pos.iter xO m k) = (digits2_pos m + k)%positive.
Proof.
  induction k as [| k IH] using Pos.peano_ind.
  - cbn. lia.
  - rewrite Pos.iter_succ. cbn [digits2_pos]. rewrite IH. lia.
Qed.

Lemma digits2_pos_bound (m : positive) :
  Z.pos m < 2 ^ 53 -> Z.pos (digits2_pos m) <= 53.
Proof.
  intros Hm. rewrite digits2_pos_size.
  pose proof (Pos.size_le m) as Hle.
  apply Pos2Z.pos_le_pos in Hle. rewrite Pos2Z.inj_pow in Hle.
  change (Z.pos (m~0)) with (2 * Z.pos m) in Hle. change (Z.pos 2) with 2 in Hle.
  destruct (Z.le_gt_cases (Z.pos (Pos.size m)) 53) as [H | H]; [exact H |].
  exfalso.
  assert (H54 : 2 ^ 54 <= 2 ^ Z.pos (Pos.size m)).
  { apply Z.pow_le_mono_r; lia. }
  change (2 ^ 54) with (2 * 2 ^ 53) in H54. lia.
Qed.

(** An integer from 1 to 2^53 - 1 converts to a finite binary64 value of
    sign plus. *)
Lemma binary_normalize_finite (m : positive) :
  Z.pos m < 2 ^ 53 ->
  ∃ (mz : positive) (ez : Z),
    binary_normalize prec emax (Z.pos m) 0 false = S754_finite false mz ez.
Proof.
  intros Hm. pose proof (digits2_pos_bound m Hm) as Hd.
  cbn [binary_normalize]. unfold binary_round.
  assert (Hfexp : fexp prec emax (Z.pos (digits2_pos m) + 0) = Z.pos (digits2_pos m) - 53).
  { unfold fexp, SpecFloat.emin, prec, emax. lia. }
  rewrite Hfexp. unfold shl_align.
  assert (Hround : ∀ (mz : positive) (ez : Z),
            Z.pos (digits2_pos mz) = 53 -> -52 <= ez <= 0 ->
            binary_round_aux prec emax false (Z.pos mz) ez loc_Exact =
            S754_finite false mz ez).
  { intros mz ez Hdz Hez. unfold binary_round_aux, shr_fexp.
    cbn [Zdigits2 shr_record_of_loc]. rewrite Hdz.
    assert (Hf : fexp prec emax (53 + ez) - ez = 0).
    { unfold fexp, SpecFloat.emin, prec, emax. lia. }
    rewrite Hf. cbn [shr shr_m loc_of_shr_record round_nearest_even Zdigits2
                      shr_record_of_loc].
    rewrite Hdz, Hf. cbn [shr shr_m].
    destruct (Z.leb_spec ez (emax - prec)) as [_ | Hbad]; [reflexivity |].
    unfold emax, prec in Hbad. lia. }
  destruct (Z.pos (digits2_pos m) - 53 - 0) as [| k | k] eqn:Hk; [| lia |].
  - exists m, 0. apply Hround; lia.
  - exists (Pos.iter xO m k), (Z.pos (digits2_pos m) - 53).
    apply Hround; [| lia].
    rewrite digits2_pos_shift. lia.
Qed.

Lemma zero_div_positive (n : Z) :
  0 < n <= INT_MAX -> (0 / float_of_int n)%float = 0%float.
Proof.
  intros [Hpos Hmax]. unfold INT_MAX in Hmax.
  rewrite <- (SF2Prim_Prim2SF (0 / float_of_int n)%float).
  rewrite div_spec. unfold float_of_int.
  destruct (Z.ltb_spec n 0) as [Hlt | _]; [lia |].
  rewrite of_uint63_spec, Uint63.of_Z_spec.
  rewrite Z.mod_small by (change Uint63.wB with (2 ^ 63); lia).
  destruct n as [| m | m]; try lia.
  destruct (binary_normalize_finite m) as (mz & ez & Hfin); [lia |].
  rewrite Hfin. reflexivity.
Qed.

Lemma map_divide_positive_zero (n : Z) (v : vec_t) :
  0 < n <= INT_MAX -> all_zero v ->
  all_zero (map (fun x => (x / float_of_int n)%float) v).
Proof.
  intros Hn. unfold all_zero.
  induction 1 as [| x t Hx Ht IH]; cbn; constructor; [| exact IH].
  subst x. apply zero_div_positive, Hn.
Qed.

(** X15. For every positive [int] [n], [init_weight] followed by
    [divide_hessian(n)] returns and leaves every element of both hessians
    equal to zero: the average of an empty sum is the zero that
    [init_weight] wrote. *)
Theorem init_then_divide_by_positive (a : addr) (l : layer_base) (w : world) (n : Z) :
  heap w !! a = Some l -> 0 < n <= INT_MAX ->
  ∃ (w' : world) (l' : layer_base),
    (init_weight a ;;; divide_hessian a n) w = (Val tt, w') ∧
    heap w' !! a = Some l' ∧
    all_zero (Whessian_ l') ∧ all_zero (bhessian_ l') ∧
    W_ l' = W_ (fst (init_weight_layer l (gen w))) ∧
    b_ l' = b_ (fst (init_weight_layer l (gen w))).
Proof.
  intros Hl Hn. unfold bind. rewrite (init_weight_run a l w Hl).
  erewrite divide_hessian_run by (cbn [heap]; apply lookup_insert_eq).
  eexists _, _. split; [reflexivity |].
  rewrite heap_set_heap. split; [apply lookup_insert_eq |].
  unfold divide_hessian_layer, init_weight_layer.
  cbn [fst snd Whessian_ bhessian_ W_ b_ set_member].
  rewrite !divide_elements_map.
  split; [apply map_divide_positive_zero; [exact Hn | apply std_fill_zero] |].
  split; [apply map_divide_positive_zero; [exact Hn | apply std_fill_zero] |].
  split; reflexivity.
Qed.

End Properties.

(** * The properties on the sample network *)

Section OnSample.
#[local] Existing Instance plain_externals.
#[local] Existing Instance plain_methods.

Lemma SFcompare_refl (x : spec_float) : x ≠ S754_nan -> SFcompare x x = Some Eq.
Proof.
  destruct x as [s | s | | s m e]; cbn; intros Hx; try contradiction;
    try reflexivity.
  - destruct s; reflexivity.
  - destruct s; rewrite Z.compare_refl, Pos.compare_cont_refl; reflexivity.
Qed.

Lemma leb_ends (lo hi : float_t) :
  (lo <=? hi)%float = true -> (lo <=? lo)%float = true ∧ (hi <=? hi)%float = true.
Proof.
  rewrite !leb_spec. unfold SFleb. intros Hle. split.
  - rewrite SFcompare_refl; [reflexivity |].
    intros Hn. rewrite Hn in Hle. discriminate Hle.
  - rewrite SFcompare_refl; [reflexivity |].
    intros Hn. rewrite Hn in Hle.
    destruct (Prim2SF lo); discriminate Hle.
Qed.

(** The alternating source draws from the interval it is given. *)
Lemma plain_draws_in_range : draws_in_range.
Proof.
  intros lo hi g Hle. destruct (leb_ends lo hi Hle) as [Hlo Hhi].
  cbn. unfold plain_uniform_rand1. destruct (Nat.even g); cbn; split; assumption.
Qed.


Lemma sample_built_lookup :
  heap (snd sample_built) !! 1%positive = Some sample_sentinel ∧
  heap (snd sample_built) !! 2%positive = Some sample_plain ∧
  heap (snd sample_built) !! 3%positive = Some sample_frozen.
Proof. repeat split; vm_compute; reflexivity. Qed.

Ltac by_computation := vm_compute; reflexivity.

(** [L2.connect(L1)] on the sample: the output size 1 of the layer at 3 is
    not the input size 3 of the layer at 2. *)
Lemma connect_raises_iff_mismatch_witness :
  heap (snd sample_built) !! 3%positive = Some sample_frozen ∧
  heap (snd sample_built) !! 2%positive = Some sample_plain ∧
  mismatch sample_frozen sample_plain ∧
  connect 3%positive (Some 2%positive) (snd sample_built) =
    (Throw (nn_error "dimension mismatch"), snd sample_built).
Proof.
  assert (H3 : heap (snd sample_built) !! 3%positive = Some sample_frozen)
    by by_computation.
  assert (H2 : heap (snd sample_built) !! 2%positive = Some sample_plain)
    by by_computation.
  assert (Hm : mismatch sample_frozen sample_plain)
    by (split; vm_compute; discriminate).
  split; [exact H3 |]. split; [exact H2 |]. split; [exact Hm |].
  exact (proj1 (proj2 (connect_raises_iff_mismatch 3%positive 2%positive
                         sample_frozen sample_plain (snd sample_built) H3 H2)) Hm).
Defined.

(** C2 as the specification words it fails: the sentinel of the sample is
    connected to the layer at 2, whose input size is 3, and its output size
    is 0 afterwards as before. *)
Lemma connect_sentinel_keeps_zero :
  ¬ (∀ (a b : addr) (w w' : world) (la' lb' : layer_base),
       connect a (Some b) w = (Val tt, w') ->
       heap w' !! a = Some la' -> heap w' !! b = Some lb' ->
       out_size la' = in_size lb').
Proof.
  intros Hall.
  specialize (Hall 1%positive 2%positive (snd sample_built)
                (snd (connect 1%positive (Some 2%positive) (snd sample_built)))
                linked_sentinel (set_prev_ (Some 1%positive) sample_plain)).
  assert (Hsz : out_size linked_sentinel =
                in_size (set_prev_ (Some 1%positive) sample_plain)).
  { apply Hall; by_computation. }
  vm_compute in Hsz. discriminate Hsz.
Qed.

Lemma connect_success_sizes_witness :
  connect 1%positive (Some 2%positive) (snd sample_built) =
    (Val tt, snd (connect 1%positive (Some 2%positive) (snd sample_built))) ∧
  ∃ la' lb' : layer_base,
    heap (snd (connect 1%positive (Some 2%positive) (snd sample_built))) !! 1%positive
      = Some la' ∧
    heap (snd (connect 1%positive (Some 2%positive) (snd sample_built))) !! 2%positive
      = Some lb' ∧
    prev_ lb' = Some 1%positive ∧
    (out_size la' = 0 ∨ out_size la' = in_size lb') ∧
    out_size la' = out_size sample_sentinel ∧ in_size lb' = in_size sample_plain.
Proof.
  assert (Hc : connect 1%positive (Some 2%positive) (snd sample_built) =
               (Val tt, snd (connect 1%positive (Some 2%positive) (snd sample_built))))
    by by_computation.
  split; [exact Hc |].
  apply (connect_success_sizes 1%positive 2%positive sample_sentinel sample_plain
           (snd sample_built) _); [by_computation | by_computation | exact Hc].
Defined.

Lemma init_weight_bounds_witness :
  heap (snd sample_net) !! 2%positive = Some linked_plain ∧
  0 < fan_in_size linked_plain ∧
  ∃ (w' : world) (l' : layer_base),
    init_weight 2%positive (snd sample_net) = (Val tt, w') ∧
    heap w' !! 2%positive = Some l' ∧
    length (W_ l') = 6%nat ∧ length (b_ l') = 2%nat ∧
    length (Whessian_ l') = 6%nat ∧ length (bhessian_ l') = 2%nat ∧
    within (- weight_base_of 3)%float (weight_base_of 3) (W_ l') ∧
    within (- weight_base_of 3)%float (weight_base_of 3) (b_ l') ∧
    all_zero (Whessian_ l') ∧ all_zero (bhessian_ l').
Proof.
  assert (Hl : heap (snd sample_net) !! 2%positive = Some linked_plain)
    by by_computation.
  assert (Hfan : 0 < fan_in_size linked_plain) by by_computation.
  split; [exact Hl |]. split; [exact Hfan |].
  destruct (init_weight_bounds 2%positive linked_plain (snd sample_net)
              plain_draws_in_range Hl Hfan)
    as (w' & l' & Hrun & Hl' & HlW & Hlb & HlWh & Hlbh & HW & Hb & HWh & Hbh & _).
  exists w', l'.
  split; [exact Hrun |]. split; [exact Hl' |].
  split; [exact HlW |]. split; [exact Hlb |].
  split; [exact HlWh |]. split; [exact Hlbh |].
  split; [exact HW |]. split; [exact Hb |].
  split; [exact HWh | exact Hbh].
Defined.

Lemma sentinel_pass_through_witness :
  heap (snd sample_built) !! 1%positive = Some sample_sentinel ∧
  (∃ w' : world,
     forward_propagation 1 (Some 1%positive)
       (ref_caller [1%float; 2%float; 3%float]) (snd sample_built)
       = (Val (output 1%positive), w') ∧
     load (output 1%positive) w' = (Val [1%float; 2%float; 3%float], w') ∧
     heap w' = <[1%positive := set_member m_output [1%float; 2%float; 3%float]
                                 sample_sentinel]> (heap (snd sample_built)) ∧
     gen w' = gen (snd sample_built) ∧ calls w' = calls (snd sample_built)) ∧
  back_propagation (Some 1%positive) (ref_caller [0.5%float]) (Some 9%positive)
    (snd sample_built) = (Val (ref_caller [0.5%float]), snd sample_built) ∧
  updater_calls
    (calls (snd (back_propagation (Some 1%positive) (ref_caller [0.5%float])
                   (Some 9%positive) (snd sample_built)))) =
    updater_calls (calls (snd sample_built)) ∧
  back_propagation_2nd (Some 1%positive) (ref_caller [0.25%float])
    (snd sample_built) = (Val (ref_caller [0.25%float]), snd sample_built).
Proof.
  assert (Hl : heap (snd sample_built) !! 1%positive = Some sample_sentinel)
    by by_computation.
  split; [exact Hl |].
  apply (sentinel_pass_through 1%positive sample_sentinel (snd sample_built)
           (ref_caller [1%float; 2%float; 3%float])
           (ref_caller [0.5%float]) (ref_caller [0.25%float])
           [1%float; 2%float; 3%float] (Some 9%positive) 0 Hl);
    reflexivity.
Defined.

Lemma sentinel_fan_in_witness :
  vptr sample_sentinel = class_input_layer ∧
  fan_in_size sample_sentinel = 1 ∧
  connection_size sample_sentinel = in_size sample_sentinel ∧
  PrimFloat.sqrt (float_of_int (fan_in_size sample_sentinel)) = 1%float ∧
  (PrimFloat.sqrt (float_of_int (fan_in_size sample_sentinel)) =? 0)%float = false ∧
  weight_base_of (fan_in_size sample_sentinel) = 0.5%float.
Proof.
  split; [reflexivity |].
  apply (sentinel_fan_in sample_sentinel). reflexivity.
Defined.

Lemma sample_net_chain :
  chain (heap (snd sample_net)) (head_ (fst sample_net))
    [1%positive; 2%positive; 3%positive].
Proof.
  split; [reflexivity |]. exists linked_sentinel. split; [by_computation |].
  split; [reflexivity |]. exists linked_plain. split; [by_computation |].
  split; [reflexivity |]. exists linked_frozen. split; [by_computation |].
  reflexivity.
Qed.


Lemma divide_hessian_elements_witness :
  heap (snd sample_net) !! 2%positive = Some linked_plain ∧ 4 ≠ 0 ∧
  ∃ l' : layer_base,
    divide_hessian 2%positive 4 (snd sample_net) =
      (Val tt, set_heap (<[2%positive := l']> (heap (snd sample_net))) (snd sample_net)) ∧
    Whessian_ l' = map (fun x => (x / float_of_int 4)%float) (Whessian_ linked_plain) ∧
    bhessian_ l' = map (fun x => (x / float_of_int 4)%float) (bhessian_ linked_plain) ∧
    W_ l' = W_ linked_plain ∧ b_ l' = b_ linked_plain.
Proof.
  assert (Hl : heap (snd sample_net) !! 2%positive = Some linked_plain)
    by by_computation.
  assert (Hn : 4 ≠ 0) by lia.
  split; [exact Hl |]. split; [exact Hn |].
  destruct (divide_hessian_elements 2%positive linked_plain (snd sample_net) 4 Hl Hn)
    as (l' & Hrun & HWh & Hbh & HW & Hb & _).
  exists l'. repeat split; assumption.
Defined.

Lemma init_then_divide_by_one_witness :
  heap (snd sample_net) !! 2%positive = Some linked_plain ∧
  ∃ (w' : world) (l' : layer_base),
    (init_weight 2%positive ;;; divide_hessian 2%positive 1) (snd sample_net)
      = (Val tt, w') ∧
    heap w' !! 2%positive = Some l' ∧
    all_zero (Whessian_ l') ∧ all_zero (bhessian_ l').
Proof.
  assert (Hl : heap (snd sample_net) !! 2%positive = Some linked_plain)
    by by_computation.
  split; [exact Hl |].
  exact (init_then_divide_by_one 2%positive linked_plain (snd sample_net) Hl).
Defined.

(** The sentinel of the sample after [forward_propagation] of three
    elements: its [output_] has three elements and its [out_size_] is 0. *)
Lemma sentinel_output_outgrows :
  ∃ (w' : world) (l : layer_base),
    forward_propagation 1 (Some 1%positive)
      (ref_caller [1%float; 2%float; 3%float]) (snd sample_built)
      = (Val (output 1%positive), w') ∧
    heap w' !! 1%positive = Some l ∧
    Z.of_nat (length (output_ l)) = 3 ∧ out_size l = 0.
Proof.
  eexists _, _. split; [by_computation |].
  split; [by_computation |]. split; reflexivity.
Qed.

(** C8 as the specification words it fails: the length of [output_] is not
    [out_size()] at all times after construction. The sentinel of the
    sample is as its constructor left it, with buffers of the lengths of its
    sizes; it copies whatever it is given, and after [forward_propagation]
    of three elements its [output_] has three elements while [out_size()]
    is 0 as before. *)
Lemma sizes_not_at_all_times :
  ∃ (l0 : layer_base) (w' : world) (l : layer_base),
    heap (snd sample_built) !! 1%positive = Some l0 ∧
    buffers_sized l0 ∧
    forward_propagation 1 (Some 1%positive)
      (ref_caller [1%float; 2%float; 3%float]) (snd sample_built)
      = (Val (output 1%positive), w') ∧
    heap w' !! 1%positive = Some l ∧
    out_size l = out_size l0 ∧
    Z.of_nat (length (output_ l)) ≠ out_size l.
Proof.
  destruct sentinel_output_outgrows as (w' & l & Hrun & Hl & Hlen & Hout).
  exists sample_sentinel, w', l.
  split; [by_computation |].
  split; [split; [reflexivity | split; reflexivity] |].
  split; [exact Hrun |]. split; [exact Hl |].
  split; [rewrite Hout; reflexivity |].
  rewrite Hlen, Hout. discriminate.
Qed.

Lemma sizes_established_and_kept_witness :
  heap empty_world !! 4%positive = None ∧
  supplied 3 ∧ supplied 2 ∧ supplied 6 ∧
  ¬ supplied (-1) ∧ ¬ supplied 65537 ∧
  (∃ w' : world,
     layer_base_ctor (class_ext plain_layer) 4%positive 3 2 6 2 empty_world =
       (Val tt, w') ∧
     ∃ l : layer_base,
       w' = set_heap (<[4%positive := l]> (heap empty_world)) empty_world ∧
       in_size l = 3 ∧ out_size l = 2 ∧
       buffers_sized l ∧
       Z.of_nat (length (W_ l)) = 6 ∧ Z.of_nat (length (b_ l)) = 2 ∧
       (6 + 2 <= INT_MAX -> param_size l = 6 + 2)) ∧
  (∃ e : exn,
     layer_base_ctor (class_ext plain_layer) 4%positive 3 (-1) 6 2 empty_world =
       (Throw e, empty_world)) ∧
  (∃ e : exn,
     layer_base_ctor (class_ext plain_layer) 4%positive 3 2 65537 2 empty_world =
       (Throw e, empty_world)) ∧
  (Z.of_nat (length (W_ sample_plain)) + Z.of_nat (length (b_ sample_plain))
     <= INT_MAX) ∧
  param_size sample_plain =
    Z.of_nat (length (W_ sample_plain)) + Z.of_nat (length (b_ sample_plain)).
Proof.
  assert (Hfresh : heap empty_world !! 4%positive = None) by reflexivity.
  assert (H3 : supplied 3) by (split; [lia | intros _; reflexivity]).
  assert (H2 : supplied 2) by (split; [lia | intros _; reflexivity]).
  assert (H6 : supplied 6) by (split; [lia | intros _; reflexivity]).
  assert (Hneg : ¬ supplied (-1)) by (intros [Hn _]; lia).
  assert (Hbig : ¬ supplied 65537).
  { intros [_ Hal]. specialize (Hal eq_refl). discriminate Hal. }
  assert (Hsum : Z.of_nat (length (W_ sample_plain)) +
                 Z.of_nat (length (b_ sample_plain)) <= INT_MAX)
    by (vm_compute; discriminate).
  split; [exact Hfresh |]. split; [exact H3 |]. split; [exact H2 |].
  split; [exact H6 |]. split; [exact Hneg |]. split; [exact Hbig |].
  destruct (proj1 (proj2 (proj2 sizes_established_and_kept))
              (@class_ext plain_externals plain_layer) 4%positive 3 2 6 2 empty_world
              Hfresh H3 H2 H6 H2) as [w' Hrun].
  split; [| split; [| split; [| split; [exact Hsum |]]]].
  - exists w'. split; [exact Hrun |].
    exact (proj1 (proj2 sizes_established_and_kept)
             (@class_ext plain_externals plain_layer) 4%positive 3 2 6 2
             empty_world w' Hfresh Hrun).
  - destruct (proj1 (proj2 (proj2 (proj2 sizes_established_and_kept)))
                (@class_ext plain_externals plain_layer) 4%positive 3 (-1) 6 2
                empty_world Hfresh) as (e & Hthrow & _).
    + intros (_ & Ho & _). exact (Hneg Ho).
    + exists e. exact Hthrow.
  - destruct (proj1 (proj2 (proj2 (proj2 sizes_established_and_kept)))
                (@class_ext plain_externals plain_layer) 4%positive 3 2 65537 2
                empty_world Hfresh) as (e & Hthrow & _).
    + intros (_ & _ & Hwd & _). exact (Hbig Hwd).
    + exists e. exact Hthrow.
  - exact (proj1 sizes_established_and_kept sample_plain Hsum).
Defined.

(** Adding the layer at 2 once more to the sample: its input size 3 is not
    the output size 1 of the tail. *)
Lemma add_failure_keeps_chain_witness :
  head_ (fst sample_net) ≠ None ∧
  layers_add (Some 2%positive) (fst sample_net, snd sample_net) =
    (Throw (nn_error "dimension mismatch"), (fst sample_net, snd sample_net)).
Proof.
  assert (Hhead : head_ (fst sample_net) ≠ None) by (vm_compute; discriminate).
  split; [exact Hhead |].
  apply (proj2 (add_failure_keeps_chain (fst sample_net) (snd sample_net)
                  (Some 2%positive) Hhead)
           3%positive 2%positive linked_frozen linked_plain);
    try by_computation.
  split; vm_compute; discriminate.
Defined.

(** ** The further properties on the sample *)

Lemma sample_built_chain :
  chain (heap (snd sample_built)) (head_ (fst sample_built)) ([] ++ [1%positive]).
Proof.
  split; [reflexivity |]. exists sample_sentinel. split; [by_computation | reflexivity].
Qed.

Lemma sentinel_matches (l : layer_base) : ¬ mismatch sample_sentinel l.
Proof. intros [Hout _]. apply Hout. reflexivity. Qed.

Lemma layers_ctor_establishes_witness :
  heap empty_world !! 1%positive = None ∧
  ∃ (c : layers) (w' : world),
    layers_ctor 1%positive empty_world = (Val tt, (c, w')) ∧
    layers_empty c = false ∧ layers_head c = Some 1%positive ∧
    layers_tail c = Some 1%positive.
Proof.
  assert (Hfresh : heap empty_world !! 1%positive = None) by reflexivity.
  split; [exact Hfresh |].
  destruct (layers_ctor_establishes 1%positive empty_world Hfresh)
    as (c & w' & Hrun & He & Hh & Ht & _).
  exists c, w'. split; [exact Hrun |]. split; [exact He |].
  split; [exact Hh | exact Ht].
Defined.

Lemma add_appends_layer_witness :
  tail_ (fst sample_built) = Some 1%positive ∧
  heap (snd sample_built) !! 2%positive = Some sample_plain ∧
  ∃ (c' : layers) (w' : world),
    layers_add (Some 2%positive) (fst sample_built, snd sample_built) =
      (Val tt, (c', w')) ∧
    layers_tail c' = Some 2%positive ∧
    chain (heap w') (layers_head c') ([] ++ [1%positive; 2%positive]).
Proof.
  assert (Ht : tail_ (fst sample_built) = Some 1%positive) by by_computation.
  assert (H1 : heap (snd sample_built) !! 1%positive = Some sample_sentinel)
    by by_computation.
  assert (H2 : heap (snd sample_built) !! 2%positive = Some sample_plain)
    by by_computation.
  assert (Hfresh : 2%positive ∉ [] ++ [1%positive]).
  { intros Hin. apply list_elem_of_In in Hin. cbn in Hin.
    destruct Hin as [Hin | []]. discriminate Hin. }
  split; [exact Ht |]. split; [exact H2 |].
  destruct (add_appends_layer (fst sample_built) (snd sample_built) []
              1%positive 2%positive sample_sentinel sample_plain
              sample_built_chain Ht H1 H2 Hfresh eq_refl
              (sentinel_matches sample_plain))
    as (c' & w' & Hrun & Htail & _ & Hchain & _).
  exists c', w'. split; [exact Hrun |]. split; [exact Htail | exact Hchain].
Defined.

Lemma sample_net_reachable : reachable sample_net.
Proof.
  assert (H0 : reachable (snd (layers_ctor 1%positive empty_world))).
  { apply (reachable_ctor 1%positive empty_world); [reflexivity | by_computation]. }
  assert (H1 : reachable
                 (fst (snd (layers_ctor 1%positive empty_world)),
                  snd (plain_layer_ctor 2%positive 3 2 6 2
                         (snd (snd (layers_ctor 1%positive empty_world)))))).
  { apply (reachable_new _ (snd (snd (layers_ctor 1%positive empty_world))) _
             (@class_ext plain_externals plain_layer) 2%positive 3 2 6 2 (Val tt)).
    - rewrite <- surjective_pairing. exact H0.
    - by_computation. }
  assert (H2 : reachable sample_built).
  { apply (reachable_new _
             (snd (plain_layer_ctor 2%positive 3 2 6 2
                     (snd (snd (layers_ctor 1%positive empty_world))))) _
             (@class_ext plain_externals frozen_layer) 3%positive 2 1 2 1 (Val tt)).
    - exact H1.
    - by_computation. }
  assert (H3 : reachable sample_two).
  { apply (reachable_add sample_built _ (Some 2%positive) H2). by_computation. }
  apply (reachable_add sample_two _ (Some 3%positive) H3). by_computation.
Qed.

Lemma reachable_container_ok_witness :
  reachable sample_net ∧ container_ok sample_net.
Proof.
  split; [exact sample_net_reachable |].
  exact (reachable_container_ok sample_net sample_net_reachable).
Defined.

Lemma layers_divide_hessian_chain_witness :
  chain (heap (snd sample_net)) (head_ (fst sample_net))
    [1%positive; 2%positive; 3%positive] ∧
  ∃ w' : world,
    layers_divide_hessian 3 4 (fst sample_net, snd sample_net) =
      (Val tt, (fst sample_net, w')) ∧
    gen w' = gen (snd sample_net) ∧ calls w' = calls (snd sample_net).
Proof.
  split; [exact sample_net_chain |].
  destruct (layers_divide_hessian_chain (fst sample_net) (snd sample_net)
              [1%positive; 2%positive; 3%positive] 3 4 sample_net_chain (le_n 3))
    as (w' & Hrun & Hgen & Hcalls & _).
  exists w'. split; [exact Hrun |]. split; [exact Hgen | exact Hcalls].
Defined.

Lemma looped_world_lookup : heap looped_world !! 1%positive = Some looped_sentinel.
Proof. by_computation. Qed.

(** With the sentinel of the sample connected to itself,
    [layers::divide_hessian] does not return. *)
Lemma layers_divide_hessian_returns_iff_witness :
  ¬ ∃ (fuel : nat) (s' : layers * world),
      layers_divide_hessian fuel 4 (fst sample_built, looped_world) = (Val tt, s').
Proof.
  intros Hret.
  apply (proj1 (layers_divide_hessian_returns_iff (fst sample_built) looped_world 4))
    in Hret.
  destruct Hret as (path & Hchain).
  change (head_ (fst sample_built)) with (Some 1%positive) in Hchain.
  exact (no_chain_on_self_loop _ 1%positive looped_sentinel path
           looped_world_lookup eq_refl Hchain).
Defined.

Lemma sample_two_chain :
  chain (heap (snd sample_two)) (head_ (fst sample_two)) [1%positive; 2%positive].
Proof.
  split; [reflexivity |]. exists linked_sentinel. split; [by_computation |].
  split; [reflexivity |]. exists tail_plain. split; [by_computation |].
  reflexivity.
Qed.

Lemma sample_two_inherits (a : addr) (l : layer_base) :
  a ∈ [1%positive; 2%positive] -> heap (snd sample_two) !! a = Some l ->
  inherits_reset l.
Proof.
  intros Ha Hl. apply list_elem_of_In in Ha. cbn in Ha.
  destruct Ha as [<- | [<- | []]].
  - assert (H1 : heap (snd sample_two) !! 1%positive = Some linked_sentinel)
      by by_computation.
    pose proof (eq_trans (eq_sym Hl) H1) as E. injection E as ->. exact I.
  - assert (H2 : heap (snd sample_two) !! 2%positive = Some tail_plain)
      by by_computation.
    pose proof (eq_trans (eq_sym Hl) H2) as E. injection E as ->. reflexivity.
Qed.

Lemma layers_reset_inherited_witness :
  chain (heap (snd sample_two)) (head_ (fst sample_two)) [1%positive; 2%positive] ∧
  ∃ w' : world,
    layers_reset 2 (fst sample_two, snd sample_two) = (Val tt, (fst sample_two, w')) ∧
    ∀ a : addr, a ∉ [1%positive; 2%positive] ->
                heap w' !! a = heap (snd sample_two) !! a.
Proof.
  split; [exact sample_two_chain |].
  destruct (layers_reset_inherited (fst sample_two) (snd sample_two)
              [1%positive; 2%positive] 2 sample_two_chain sample_two_inherits (le_n 2))
    as (w' & Hrun & _ & Hout).
  exists w'. split; [exact Hrun | exact Hout].
Defined.

Lemma init_weight_frame_witness :
  heap (snd sample_net) !! 2%positive = Some linked_plain ∧
  ∃ l' : layer_base,
    init_weight 2%positive (snd sample_net) =
      (Val tt,
       mk_world (<[2%positive := l']> (heap (snd sample_net)))
         (advance (length (W_ linked_plain) + length (b_ linked_plain))
            (- weight_base_of (fan_in_size linked_plain))%float
            (weight_base_of (fan_in_size linked_plain))
            (gen (snd sample_net)))
         (calls (snd sample_net))) ∧
    output_ l' = output_ linked_plain ∧ next_ l' = next_ linked_plain.
Proof.
  assert (Hl : heap (snd sample_net) !! 2%positive = Some linked_plain)
    by by_computation.
  split; [exact Hl |].
  destruct (init_weight_frame 2%positive linked_plain (snd sample_net) Hl)
    as (l' & Hrun & Hout & _ & _ & _ & _ & Hnext & _).
  exists l'. split; [exact Hrun |]. split; [exact Hout | exact Hnext].
Defined.

Lemma init_weight_without_parameters_witness :
  heap (snd sample_net) !! 1%positive = Some linked_sentinel ∧
  no_parameters linked_sentinel ∧
  init_weight 1%positive (snd sample_net) = (Val tt, snd sample_net).
Proof.
  assert (Hl : heap (snd sample_net) !! 1%positive = Some linked_sentinel)
    by by_computation.
  assert (Hnone : no_parameters linked_sentinel) by (repeat split; reflexivity).
  split; [exact Hl |]. split; [exact Hnone |].
  exact (proj1 (init_weight_without_parameters 1%positive linked_sentinel
                  (snd sample_net) Hl Hnone)).
Defined.

Lemma hessian_shapes_kept_witness :
  heap empty_world !! 4%positive = None ∧
  hessians_shaped sample_plain ∧ all_zero (Whessian_ sample_plain).
Proof.
  assert (Hfresh : heap empty_world !! 4%positive = None) by reflexivity.
  split; [exact Hfresh |].
  destruct (proj1 hessian_shapes_kept (@class_ext plain_externals plain_layer)
              4%positive 3 2 6 2
              empty_world
              (snd (plain_layer_ctor 4%positive 3 2 6 2 empty_world))
              sample_plain Hfresh)
    as (Hshape & _ & _ & Hzero & _); [by_computation | by_computation |].
  split; [exact Hshape | exact Hzero].
Defined.

Lemma connect_changes_links_only_witness :
  connect 1%positive (Some 2%positive) (snd sample_built) =
    (Val tt, snd sample_two) ∧
  gen (snd sample_two) = gen (snd sample_built) ∧
  calls (snd sample_two) = calls (snd sample_built) ∧
  ∀ x : addr, x ≠ 1%positive -> x ≠ 2%positive ->
              heap (snd sample_two) !! x = heap (snd sample_built) !! x.
Proof.
  assert (Hc : connect 1%positive (Some 2%positive) (snd sample_built) =
               (Val tt, snd sample_two)) by by_computation.
  split; [exact Hc |].
  destruct (connect_changes_links_only 1%positive 2%positive
              sample_sentinel sample_plain (snd sample_built) (snd sample_two))
    as (Hgen & Hcalls & Hframe & _); [by_computation | by_computation | exact Hc |].
  split; [exact Hgen |]. split; [exact Hcalls | exact Hframe].
Defined.

Lemma reconnect_leaves_stale_prev_witness :
  ∃ w2 : world,
    (connect 1%positive (Some 2%positive) ;;; connect 1%positive (Some 3%positive))
      (snd sample_built) = (Val tt, w2) ∧
    heap w2 !! 1%positive = Some (set_next_ (Some 3%positive) sample_sentinel) ∧
    heap w2 !! 2%positive = Some (set_prev_ (Some 1%positive) sample_plain) ∧
    heap w2 !! 3%positive = Some (set_prev_ (Some 1%positive) sample_frozen).
Proof.
  apply (reconnect_leaves_stale_prev 1%positive 2%positive 3%positive
           sample_sentinel sample_plain sample_frozen (snd sample_built));
    try discriminate; try by_computation; apply sentinel_matches.
Defined.

Lemma sentinel_forwards_to_successor_witness :
  heap (snd sample_net) !! 1%positive = Some linked_sentinel ∧
  heap (snd sample_net) !! 2%positive = Some linked_plain ∧
  forward_propagation 2 (Some 1%positive) (ref_caller [1%float; 2%float; 3%float])
    (snd sample_net) =
    ext_forward_propagation plain_layer 2%positive
      (ref_caller [1%float; 2%float; 3%float])
      (set_heap (<[1%positive := set_member m_output [1%float; 2%float; 3%float]
                                   linked_sentinel]> (heap (snd sample_net)))
         (snd sample_net)).
Proof.
  assert (H1 : heap (snd sample_net) !! 1%positive = Some linked_sentinel)
    by by_computation.
  assert (H2 : heap (snd sample_net) !! 2%positive = Some linked_plain)
    by by_computation.
  split; [exact H1 |]. split; [exact H2 |].
  exact (proj1 (sentinel_forwards_to_successor 1%positive 2%positive
                  linked_sentinel linked_plain plain_layer (snd sample_net)
                  (ref_caller [1%float; 2%float; 3%float])
                  (ref_caller []) None [1%float; 2%float; 3%float] 0
                  H1 eq_refl eq_refl H2 eq_refl eq_refl)).
Defined.

Lemma sentinel_self_loop_diverges_witness :
  heap looped_world !! 1%positive = Some looped_sentinel ∧
  fst (forward_propagation 7 (Some 1%positive) (ref_caller [1%float]) looped_world)
    = OutOfFuel.
Proof.
  split; [exact looped_world_lookup |].
  exact (sentinel_self_loop_diverges 1%positive looped_sentinel looped_world
           (ref_caller [1%float]) [1%float] 7
           looped_world_lookup eq_refl eq_refl eq_refl).
Defined.

Lemma add_tail_again_hangs_witness :
  tail_ (fst sample_built) = Some 1%positive ∧
  ∃ (c' : layers) (w' : world),
    layers_add (Some 1%positive) (fst sample_built, snd sample_built) =
      (Val tt, (c', w')) ∧
    ∀ (fuel : nat) (n : Z) (s' : layers * world),
      layers_divide_hessian fuel n (c', w') ≠ (Val tt, s').
Proof.
  assert (Ht : tail_ (fst sample_built) = Some 1%positive) by by_computation.
  assert (H1 : heap (snd sample_built) !! 1%positive = Some sample_sentinel)
    by by_computation.
  split; [exact Ht |].
  destruct (add_tail_again_hangs (fst sample_built) (snd sample_built) []
              1%positive sample_sentinel sample_built_chain Ht H1
              (sentinel_matches sample_sentinel))
    as (c' & w' & Hrun & _ & _ & _ & Hhang).
  exists c', w'. split; [exact Hrun | exact Hhang].
Defined.

Lemma init_then_divide_by_positive_witness :
  heap (snd sample_net) !! 2%positive = Some linked_plain ∧
  0 < 10 <= INT_MAX ∧
  ∃ (w' : world) (l' : layer_base),
    (init_weight 2%positive ;;; divide_hessian 2%positive 10) (snd sample_net)
      = (Val tt, w') ∧
    heap w' !! 2%positive = Some l' ∧
    all_zero (Whessian_ l') ∧ all_zero (bhessian_ l').
Proof.
  assert (Hl : heap (snd sample_net) !! 2%positive = Some linked_plain)
    by by_computation.
  assert (Hn : 0 < 10 <= INT_MAX) by (unfold INT_MAX; lia).
  split; [exact Hl |]. split; [exact Hn |].
  destruct (init_then_divide_by_positive 2%positive linked_plain (snd sample_net) 10
              Hl Hn)
    as (w' & l' & Hrun & Hl' & HWh & Hbh & _).
  exists w', l'. split; [exact Hrun |]. split; [exact Hl' |].
  split; [exact HWh | exact Hbh].
Defined.

End OnSample.
